(** * Knuth-Morris-Pratt matching (kmp.h): shallow embedding and verification

    The C functions of [kmp.h] are embedded as executable Rocq functions.

    - C [int] values are integers of [Z].  For [0 <= n, m <= INT_MAX] every
      value the code computes ([i] in [-1 .. m-1], [j] in [0 .. n],
      [matches] in [0 .. n], [j - m + 1]) stays inside the [int] range, so no
      signed overflow is modelled.
    - A C array is a [block]: a list of cells, a cell being [None] while it is
      indeterminate (fresh from [malloc]) and [Some v] once written.  Every
      array access is checked: an access outside the block, or a read of an
      indeterminate cell, is undefined behaviour and stops the run with
      [Fault], tagged with the array and the index.
    - A null pointer is a pointer to no cell at all: the empty block.
    - The [while] loops carry fuel: each execution of a loop may evaluate its
      condition [fuel] times, and [OutOfFuel] is the outcome of a loop that
      was cut.  The [for] loops run a number of rounds fixed on entry, their
      counter being left alone by their body.
    - The streaming interface ([kmp_build], [kmp_stream]) keeps pointers in
      its state, so it runs over a heap of blocks addressed by locations.
      Blocks of [char] and blocks of [int] live in separate stores: a [char*]
      and an [int*] never point to the same cells.
    - [kmp_build] and [kmp_stream] are given first on the record of the state
      taken by value; module [Handle] then has [kmp_build], [kmp_stream] and
      [kmp_free] as their callers see them, on a pointer to the record, which
      is itself allocated in the memory and given back by [kmp_free]. *)

From stdpp Require Import gmap list strings sorting.
From Stdlib Require Import ZArith Ascii Lia.

Local Open Scope Z_scope.

(** ** Outcomes of a run *)

Inductive buffer : Set :=
| BufP | BufT | BufFailure | BufOutput | BufState | BufStateP.

Inductive outcome (A : Type) : Type :=
| Ret (a : A)
| Fault (b : buffer) (idx : Z)
| OutOfFuel.

Arguments Ret {A} a.
Arguments Fault {A} b idx.
Arguments OutOfFuel {A}.

Definition bind {A B : Type} (x : outcome A) (k : A -> outcome B) : outcome B :=
  match x with
  | Ret a => k a
  | Fault b idx => Fault b idx
  | OutOfFuel => OutOfFuel
  end.

Notation "x <- e1 ;; e2" := (bind e1 (fun x => e2))
  (at level 100, e1 at next level, right associativity).

(** ** Arrays *)

Abbreviation block A := (list (option A)).

(** A fully initialised array holding the elements of [l]. *)
Definition of_list {A : Type} (l : list A) : block A := Some <$> l.

(** [malloc(cells * sizeof(A))]: a block of indeterminate cells, or the null
    pointer when the allocation fails. *)
Definition malloc {A : Type} (ok : bool) (cells : Z) : block A :=
  if ok then replicate (Z.to_nat cells) None else [].

(** [a[i]] as an rvalue. *)
Definition load {A : Type} (b : buffer) (a : block A) (i : Z) : outcome A :=
  if decide (0 <= i) then
    match a !! Z.to_nat i with
    | Some (Some v) => Ret v
    | _ => Fault b i
    end
  else Fault b i.

(** [a[i] = v]. *)
Definition store {A : Type} (b : buffer) (a : block A) (i : Z) (v : A)
  : outcome (block A) :=
  if decide (0 <= i < Z.of_nat (length a)) then Ret (<[Z.to_nat i := Some v]> a)
  else Fault b i.

(** ** The fallback-then-advance transition

    The two statements
<<
    while (i > -1 && P[i + 1] != c) i = failure[i];
    if (P[i + 1] == c) i++;
>>
    occur in [kmp_failure] (with [c] the expression [P[j]]), in [kmp_match]
    (with [T[j]]) and in [kmp_stream] (with the variable [T_j]).  The right
    operand is passed as the outcome of evaluating it. *)

Fixpoint fallback (fuel : nat) (P : block ascii) (failure : block Z)
  (rhs : outcome ascii) (i : Z) : outcome Z :=
  match fuel with
  | O => OutOfFuel
  | S fuel' =>
      if decide (i > -1) then
        a <- load BufP P (i + 1);;
        c <- rhs;;
        if Ascii.eqb a c then Ret i
        else i' <- load BufFailure failure i;; fallback fuel' P failure rhs i'
      else Ret i
  end.

Definition advance (P : block ascii) (rhs : outcome ascii) (i : Z) : outcome Z :=
  a <- load BufP P (i + 1);;
  c <- rhs;;
  Ret (if Ascii.eqb a c then i + 1 else i).

(** ** [kmp_failure] *)

(** The body of [for (j = 1; j < m; j++)], [rounds] rounds from [j]. *)
Fixpoint kmp_failure_loop (fuel : nat) (P : block ascii) (rounds : nat)
  (j i : Z) (failure : block Z) : outcome (block Z) :=
  match rounds with
  | O => Ret failure
  | S rounds' =>
      i1 <- fallback fuel P failure (load BufP P j) i;;
      i2 <- advance P (load BufP P j) i1;;
      failure' <- store BufFailure failure j i2;;
      kmp_failure_loop fuel P rounds' (j + 1) i2 failure'
  end.

Definition kmp_failure (fuel : nat) (P : block ascii) (m : Z)
  (failure : block Z) : outcome (block Z) :=
  failure0 <- store BufFailure failure 0 (-1);;
  kmp_failure_loop fuel P (Z.to_nat (m - 1)) 1 (-1) failure0.

(** ** [kmp_match] *)

(** The body of [for (j = 0; j < n; j++)], [rounds] rounds from [j]. *)
Fixpoint kmp_match_loop (fuel : nat) (T P : block ascii) (m : Z)
  (failure : block Z) (rounds : nat) (j i matches : Z) (output : block Z)
  : outcome (Z * block Z) :=
  match rounds with
  | O => Ret (matches, output)
  | S rounds' =>
      i1 <- fallback fuel P failure (load BufT T j) i;;
      i2 <- advance P (load BufT T j) i1;;
      if decide (i2 = m - 1) then
        output' <- store BufOutput output matches (j - m + 1);;
        i3 <- load BufFailure failure i2;;
        kmp_match_loop fuel T P m failure rounds' (j + 1) i3 (matches + 1) output'
      else
        kmp_match_loop fuel T P m failure rounds' (j + 1) i2 matches output
  end.

(** [heap_ok] tells whether the [malloc] of the failure table succeeds.  The
    result is the returned count together with the final [output] array;
    [free(failure)] leaves both as they are. *)
Definition kmp_match (fuel : nat) (heap_ok : bool) (T : block ascii) (n : Z)
  (P : block ascii) (m : Z) (output : block Z) : outcome (Z * block Z) :=
  failure <- kmp_failure fuel P m (malloc heap_ok m);;
  kmp_match_loop fuel T P m failure (Z.to_nat n) 0 (-1) 0 output.

(** ** The streaming interface *)

Definition loc : Set := nat.
Definition null : loc := 0%nat.

(** The blocks of [char] and the blocks of [int], by address. *)
Record heap : Type := Heap {
  chars : gmap loc (block ascii);
  ints : gmap loc (block Z)
}.

(** The cells a pointer gives access to: none for the null pointer and for a
    pointer whose block is gone. *)
Definition deref {A : Type} (store : gmap loc (block A)) (p : loc) : block A :=
  if decide (p = null) then [] else default [] (store !! p).

(** The blocks once the cells behind [p] hold [b]; there is none behind the
    null pointer. *)
Definition update {A : Type} (store : gmap loc (block A)) (p : loc)
  (b : block A) : gmap loc (block A) :=
  if decide (p = null) then store else <[p := b]> store.

(** The address [malloc] returns, and the heap after it. *)
Definition alloc {A : Type} (ok : bool) (cells : Z) (store : gmap loc (block A))
  : gmap loc (block A) * loc :=
  if ok then
    let p := fresh ({[null]} ∪ dom store) in
    (<[p := malloc true cells]> store, p)
  else (store, null).

(** [struct kmp_state_t] *)
Record kmp_state : Type := State {
  state_P : loc;
  state_m : Z;
  state_i : Z;
  state_failure : loc
}.

(** Which of the three allocations of [kmp_build] succeed. *)
Record mallocs : Set := Mallocs {
  ok_state : bool;
  ok_P : bool;
  ok_failure : bool
}.

Definition all_ok : mallocs := Mallocs true true true.

(** [for (i = 0; i < m; i++) state->P[i] = P[i];] *)
Fixpoint kmp_build_copy (P : block ascii) (rounds : nat) (i : Z)
  (state_P : block ascii) : outcome (block ascii) :=
  match rounds with
  | O => Ret state_P
  | S rounds' =>
      c <- load BufP P i;;
      state_P' <- store BufStateP state_P i c;;
      kmp_build_copy P rounds' (i + 1) state_P'
  end.

(** [kmp_build].  The record of the state is handed back by value; when its
    allocation fails, the assignment [state->P = ...] goes through the null
    pointer.  The copy loop and [kmp_failure] work on the cells behind
    [state->P] and [state->failure], which are put back into the heap when
    they are done; [kmp_failure] reads the caller's pattern, not the copy. *)
Definition kmp_build (fuel : nat) (ok : mallocs) (h : heap) (P : loc) (m : Z)
  : outcome (heap * kmp_state) :=
  if ok_state ok then
    let '(chars1, sP) := alloc (ok_P ok) m (chars h) in
    copy <- kmp_build_copy (deref chars1 P) (Z.to_nat m) 0 (deref chars1 sP);;
    let chars2 := update chars1 sP copy in
    let '(ints1, sF) := alloc (ok_failure ok) m (ints h) in
    failure <- kmp_failure fuel (deref chars2 P) m (deref ints1 sF);;
    Ret (Heap chars2 (update ints1 sF failure), State sP m (-1) sF)
  else Fault BufState 0.

(** [kmp_stream].  The state is passed in and handed back with the result;
    no array is written. *)
Definition kmp_stream (fuel : nat) (h : heap) (state : kmp_state) (T_j : ascii)
  (j : Z) : outcome (kmp_state * Z) :=
  let P := deref (chars h) (state_P state) in
  let failure := deref (ints h) (state_failure state) in
  i1 <- fallback fuel P failure (Ret T_j) (state_i state);;
  i2 <- advance P (Ret T_j) i1;;
  if decide (i2 = state_m state - 1) then
    i3 <- load BufFailure failure i2;;
    Ret (State (state_P state) (state_m state) i3 (state_failure state), j)
  else
    Ret (State (state_P state) (state_m state) i2 (state_failure state), -1).

(** Feeding a text symbol by symbol from position [j]: the caller's loop
    around [kmp_stream], collecting the results other than [-1]. *)
Fixpoint kmp_stream_all (fuel : nat) (h : heap) (state : kmp_state)
  (T : list ascii) (j : Z) : outcome (kmp_state * list Z) :=
  match T with
  | [] => Ret (state, [])
  | T_j :: T' =>
      r <- kmp_stream fuel h state T_j j;;
      rest <- kmp_stream_all fuel h r.1 T' (j + 1);;
      Ret (rest.1, if decide (r.2 = -1) then rest.2 else r.2 :: rest.2)
  end.

(** ** [kmp_size] and [free] *)

(** [sizeof(char)] is 1; the other sizes and the widths of [size_t] and [int]
    are those of the platform.  The sum is computed in [size_t], into which
    [state->m] is converted, and converted to [int] on return; a value out of
    the range of [int] wraps around, as two's complement compilers define
    it. *)
Section Sizes.
Variables (sizeof_int sizeof_char_ptr sizeof_int_ptr : Z).
Variables (size_bits int_bits : Z).

Definition to_size_t (z : Z) : Z := z mod 2 ^ size_bits.

Definition to_int (z : Z) : Z :=
  (z + 2 ^ (int_bits - 1)) mod 2 ^ int_bits - 2 ^ (int_bits - 1).

Definition kmp_size (state : kmp_state) : Z :=
  to_int
    (to_size_t
       ((1 + sizeof_int) * to_size_t (state_m state)
        + sizeof_int * 2 + sizeof_char_ptr + sizeof_int_ptr)).

End Sizes.

(** [free(p)]: nothing for the null pointer; otherwise the block behind [p] is
    given back, and the call is undefined when there is none. *)
Definition free {A : Type} (b : buffer) (store : gmap loc (block A)) (p : loc)
  : outcome (gmap loc (block A)) :=
  if decide (p = null) then Ret store
  else match store !! p with
       | Some _ => Ret (delete p store)
       | None => Fault b 0
       end.

(** ** The streaming interface through its handle

    [kmp_state] is a pointer to a [struct kmp_state_t] that [kmp_build]
    allocates and [kmp_free] gives back.  The memory holds these records by
    address beside the blocks, in a store of their own. *)
Record memory : Type := Memory {
  blocks : heap;
  records : gmap loc kmp_state
}.

(** The record behind [state], as [state->...] reads it: undefined through the
    null pointer and through a pointer whose record is gone. *)
Definition record (mem : memory) (state : loc) : outcome kmp_state :=
  if decide (state = null) then Fault BufState 0
  else match records mem !! state with
       | Some r => Ret r
       | None => Fault BufState 0
       end.

Module Handle.

(** [kmp_build]: the record made by [malloc(sizeof(struct kmp_state_t))] is a
    new record of the memory, with the fields [kmp_build] gives it; its
    address is returned. *)
Definition kmp_build (fuel : nat) (ok : mallocs) (mem : memory) (P : loc)
  (m : Z) : outcome (memory * loc) :=
  built <- kmp_build fuel ok (blocks mem) P m;;
  let state := fresh ({[null]} ∪ dom (records mem)) in
  Ret (Memory built.1 (<[state := built.2]> (records mem)), state).

(** [kmp_stream]: the fields are read through [state] and [state->i] is
    written back. *)
Definition kmp_stream (fuel : nat) (mem : memory) (state : loc) (T_j : ascii)
  (j : Z) : outcome (memory * Z) :=
  r <- record mem state;;
  next <- kmp_stream fuel (blocks mem) r T_j j;;
  Ret (Memory (blocks mem) (<[state := next.1]> (records mem)), next.2).

(** [kmp_free]: [free(state->failure); free(state->P); free(state);] *)
Definition kmp_free (mem : memory) (state : loc) : outcome memory :=
  r <- record mem state;;
  ints' <- free BufFailure (ints (blocks mem)) (state_failure r);;
  chars' <- free BufStateP (chars (blocks mem)) (state_P r);;
  Ret (Memory (Heap chars' ints') (delete state (records mem))).

End Handle.

(** The symbols of a string literal. *)
Definition chars_of (s : string) : list ascii := String.list_ascii_of_string s.

(** * Specification *)

(** ** Prefixes of the pattern that end a text *)

Section PrefixDefinitions.
Context {A : Type}.
Implicit Types (P s w : list A) (k K B : nat) (c a : A).

Local Open Scope nat_scope.

(** The first [k] symbols of [P] are the last [k] symbols of [s]. *)
Definition matched P s k : Prop :=
  k ≤ length P ∧ take k P `suffix_of` s.

(** [k] is the greatest length below [B] of a prefix of [P] ending [s]. *)
Definition longest_below P s B k : Prop :=
  k < B ∧ matched P s k ∧ ∀ k', k' < B → matched P s k' → k' ≤ k.

(** [k] is the length of a proper prefix of [w] that is also a suffix of
    [w]. *)
Definition border w k : Prop :=
  k < length w ∧ take k w = drop (length w - k) w.

(** [k] is the length of the longest such prefix. *)
Definition longest_border w k : Prop :=
  border w k ∧ ∀ k', border w k' → k' ≤ k.

(** No prefix of [P] longer than [k] and shorter than [B] that ends [s] is
    followed by [c] in [P]. *)
Definition extension_bound P s c B k : Prop :=
  ∀ k', k' < B → matched P s k' → P !! k' = Some c → k' ≤ k.

End PrefixDefinitions.

(** The entries of the table below [t] are there and hold, minus one, the
    length of the longest border of the pattern prefix they stand for. *)
Definition table_upto (P : list ascii) (failure : block Z) (t : nat) : Prop :=
  ∀ x, (x < t)%nat →
    ∃ k, failure !! x = Some (Some (Z.of_nat k - 1))
         ∧ longest_below P (take (S x) P) (S x) k.

#[global] Instance border_dec (w : list ascii) (k : nat) : Decision (border w k).
Proof. unfold border. apply _. Defined.

(** The length of the longest border of [w], by trying every length. *)
Definition longest_border_length (w : list ascii) : nat :=
  max_list (filter (border w) (seq 0 (length w))).

(** The table of the pattern, by trying every length for every prefix. *)
Definition failure_table (P : list ascii) : list Z :=
  (λ i, Z.of_nat (longest_border_length (take (S i) P)) - 1)
  <$> seq 0 (length P).

(** [P] is the word [T[o .. o+m-1]]. *)
Definition occurs_at (P T : list ascii) (o : nat) : Prop :=
  take (length P) (drop o T) = P.

#[global] Instance occurs_at_dec P T o : Decision (occurs_at P T o).
Proof. unfold occurs_at. apply _. Defined.

(** All offsets with an occurrence, in increasing order. *)
Definition occurrences (P T : list ascii) : list nat :=
  filter (occurs_at P T) (seq 0 (S (length T) - length P)).

(** The offsets as the cells of [output] hold them. *)
Definition offsets (l : list nat) : list Z := Z.of_nat <$> l.

(** [output] once the offsets [l] are recorded in its first cells. *)
Definition recorded (l : list nat) (output : block Z) : block Z :=
  of_list (offsets l) ++ drop (length l) output.

(** The positions, counted from the start of the text [s ++ T], of the
    symbols of [T] at which an occurrence of [P] ends. *)
Fixpoint match_ends (P s T : list ascii) : list nat :=
  match T with
  | [] => []
  | c :: T' =>
      (if decide (P `suffix_of` s ++ [c]) then [length s] else [])
      ++ match_ends P (s ++ [c]) T'
  end.

(** The entries of the table below [t] point strictly downwards. *)
Definition decreasing_upto (failure : block Z) (t : nat) : Prop :=
  ∀ (x : nat) (v : Z),
    (x < t)%nat → failure !! x = Some (Some v) → v < Z.of_nat x.

(** [failure[i] < i] for every entry of the table. *)
Definition decreasing (failure : block Z) : Prop :=
  ∀ (x : nat) (v : Z), failure !! x = Some (Some v) → v < Z.of_nat x.

(** What a run of [kmp_failure] can end in, whatever its arguments: a table
    whose [t] first entries point downwards, a fault on the pattern or on the
    table, or a cut loop when the fuel is below [t - 1]. *)
Definition safe_table (fuel t : nat) (o : outcome (block Z)) : Prop :=
  match o with
  | Ret failure' => decreasing_upto failure' t
  | Fault b _ => b = BufP ∨ b = BufFailure
  | OutOfFuel => (S fuel < t)%nat
  end.

(** What a run of [kmp_match] can end in, whatever its arguments: a count
    within the bound with [output] as long as before, a fault on another
    array than [output], or a cut loop when the fuel is below [m]. *)
Definition safe_outcome (fuel : nat) (n m : Z) (len : nat)
  (o : outcome (Z * block Z)) : Prop :=
  match o with
  | Ret (k, output') => 0 ≤ k ≤ Z.max 0 (n - m + 1) ∧ length output' = len
  | Fault b _ => b ≠ BufOutput
  | OutOfFuel => (fuel < Z.to_nat m)%nat
  end.

(** [state] stands for the pattern [P] on the heap [h]: it holds a copy of the
    pattern and its table of borders. *)
Definition stream_state (h : heap) (P : list ascii) (state : kmp_state) : Prop :=
  deref (chars h) (state_P state) = of_list P
  ∧ table_upto P (deref (ints h) (state_failure state)) (length P)
  ∧ state_m state = Z.of_nat (length P).

(** The states a matcher goes through: [reachable h state0 s state] when
    feeding the symbols of [s], at whatever positions, takes the matcher from
    [state0] to [state]. *)
Inductive reachable (h : heap) (state0 : kmp_state)
  : list ascii → kmp_state → Prop :=
| reachable_build : reachable h state0 [] state0
| reachable_feed fuel s state T_j j state' r :
    reachable h state0 s state →
    kmp_stream fuel h state T_j j = Ret (state', r) →
    reachable h state0 (s ++ [T_j]) state'.

(** The same through the handle: [fed state mem mem'] when feeds of [state],
    of whatever symbols at whatever positions, take the memory from [mem] to
    [mem']. *)
Inductive fed (state : loc) (mem : memory) : memory → Prop :=
| fed_none : fed state mem mem
| fed_feed fuel mem1 mem2 T_j j r :
    fed state mem mem1 →
    Handle.kmp_stream fuel mem1 state T_j j = Ret (mem2, r) →
    fed state mem mem2.

(** * Runs of the model *)

Example kmp_failure_abababc :
  kmp_failure 7 (of_list (chars_of "abababc")) 7 (malloc true 7)
  = Ret (of_list [-1; -1; 0; 1; 2; 3; -1]).
Proof. reflexivity. Qed.

Example failure_table_abababc :
  failure_table (chars_of "abababc") = [-1; -1; 0; 1; 2; 3; -1].
Proof. reflexivity. Qed.

Example kmp_match_aa_in_aaaa :
  kmp_match 2 true (of_list (chars_of "aaaa")) 4 (of_list (chars_of "aa")) 2
    (malloc true 3)
  = Ret (3, of_list [0; 1; 2]).
Proof. reflexivity. Qed.

Example kmp_match_abc_in_ab :
  kmp_match 3 true (of_list (chars_of "ab")) 2 (of_list (chars_of "abc")) 3 []
  = Ret (0, []).
Proof. reflexivity. Qed.

Example kmp_stream_abab_in_abababab :
  (r <- kmp_build 4 all_ok (Heap {[ 5%nat := of_list (chars_of "abab") ]} ∅)
         5%nat 4;;
   s <- kmp_stream_all 4 r.1 r.2 (chars_of "abababab") 0;;
   Ret s.2)
  = Ret [3; 5; 7].
Proof. vm_compute. reflexivity. Qed.

(** * Prefixes of the pattern that end a text *)

Section Prefixes.
Context {A : Type}.
Implicit Types (P s w : list A) (k K B : nat) (c a : A).

Local Open Scope nat_scope.

Lemma matched_0 P s : matched P s 0.
Proof. split; [lia | apply suffix_nil]. Qed.

Lemma matched_length P s k : matched P s k → k ≤ length s.
Proof.
  intros [Hk Hs]. apply suffix_length in Hs.
  rewrite length_take_le in Hs by done. done.
Qed.

Lemma matched_nil P k : matched P [] k → k = 0.
Proof. intros H. apply matched_length in H. simpl in H. lia. Qed.

Lemma matched_snoc P s c k a :
  P !! k = Some a →
  matched P (s ++ [c]) (S k) ↔ matched P s k ∧ a = c.
Proof.
  intros Ha. pose proof (lookup_lt_Some _ _ _ Ha) as Hlt.
  unfold matched. rewrite (take_S_r _ _ _ Ha). split.
  - intros [_ Hs]. split; [split; [lia|]|].
    + by eapply suffix_snoc_inv_2.
    + by eapply suffix_snoc_inv_1.
  - intros [[_ Hs] ->]. split; [lia|]. by apply suffix_snoc.
Qed.

Lemma matched_trans P s K k :
  matched P s K → matched P (take K P) k → matched P s k.
Proof. intros [_ HK] [Hk Hs]. split; [done|]. by etrans. Qed.

Lemma matched_chain P s K k :
  matched P s K → k ≤ K → matched P s k → matched P (take K P) k.
Proof.
  intros [HK HsK] Hle [Hk Hsk]. split; [done|].
  destruct (suffix_weak_total _ _ _ Hsk HsK) as [H|H]; [done|].
  apply suffix_length in H. rewrite !length_take_le in H by lia.
  by replace k with K by lia.
Qed.

Lemma longest_below_unique P s B k1 k2 :
  longest_below P s B k1 → longest_below P s B k2 → k1 = k2.
Proof.
  intros (H1 & M1 & L1) (H2 & M2 & L2).
  specialize (L1 _ H2 M2). specialize (L2 _ H1 M1). lia.
Qed.

Lemma longest_below_nil P B : 0 < B → longest_below P [] B 0.
Proof.
  intros HB. split; [done|]. split; [apply matched_0|].
  intros k' _ Hk'. apply matched_nil in Hk'. lia.
Qed.

(** Below a matched length [K], the prefixes ending [s] are the borders of
    the matched prefix. *)
Lemma longest_below_chain P s K k :
  matched P s K → longest_below P (take K P) K k → longest_below P s K k.
Proof.
  intros HK (Hlt & Hm & Hmax). split; [done|]. split.
  - by eapply matched_trans.
  - intros k' Hk' Hm'. apply Hmax; [done|].
    eapply matched_chain; [done | lia | done].
Qed.

Lemma longest_below_weaken P s B k :
  longest_below P s (S B) k → k < B → longest_below P s B k.
Proof.
  intros (_ & Hm & Hmax) Hlt. split; [done|]. split; [done|].
  intros k' Hk' Hm'. apply Hmax; [lia | done].
Qed.

(** For the word [P[0..i]] the two notions agree. *)
Lemma border_matched P i k :
  i < length P →
  border (take (S i) P) k ↔ k < S i ∧ matched P (take (S i) P) k.
Proof.
  intros Hi. unfold border, matched.
  rewrite length_take_le by lia. split.
  - intros [Hk Heq]. split; [done|]. split; [lia|].
    rewrite take_take, Nat.min_l in Heq by lia.
    rewrite Heq. apply suffix_drop.
  - intros [Hk [_ [l Hl]]]. split; [done|].
    rewrite take_take, Nat.min_l by lia.
    assert (length l = S i - k) as Hlen.
    { apply (f_equal length) in Hl.
      rewrite length_app, !length_take_le in Hl by lia. lia. }
    rewrite Hl. by rewrite <- Hlen, drop_app_length.
Qed.

Lemma longest_border_below P i k :
  i < length P →
  longest_border (take (S i) P) k ↔ longest_below P (take (S i) P) (S i) k.
Proof.
  intros Hi. unfold longest_border, longest_below. split.
  - intros [Hb Hmax]. apply border_matched in Hb as [Hk Hm]; [|done].
    split; [done|]. split; [done|]. intros k' Hk' Hm'.
    apply Hmax, border_matched; done.
  - intros (Hk & Hm & Hmax). split; [by apply border_matched|].
    intros k' Hb. apply border_matched in Hb as [Hk' Hm']; [|done].
    by apply Hmax.
Qed.

End Prefixes.

Lemma longest_border_unique (w : list ascii) k1 k2 :
  longest_border w k1 → longest_border w k2 → k1 = k2.
Proof.
  intros [B1 M1] [B2 M2]. specialize (M1 _ B2). specialize (M2 _ B1). lia.
Qed.

Lemma longest_border_length_spec (w : list ascii) :
  w ≠ [] → longest_border w (longest_border_length w).
Proof.
  intros Hw. unfold longest_border_length.
  assert (border w 0) as H0.
  { split; [destruct w; [done | simpl; lia]|].
    by rewrite Nat.sub_0_r, drop_ge. }
  assert (0%nat ∈ filter (border w) (seq 0 (length w))) as Hin.
  { apply list_elem_of_filter. split; [done|].
    apply elem_of_seq. destruct H0. lia. }
  split.
  - assert (filter (border w) (seq 0 (length w)) ≠ []) as Hne.
    { intros Hnil. rewrite Hnil in Hin. by apply elem_of_nil in Hin. }
    apply max_list_elem_of, list_elem_of_filter in Hne. by destruct Hne.
  - intros k Hk. apply max_list_elem_of_le, list_elem_of_filter.
    split; [done|]. apply elem_of_seq. destruct Hk. lia.
Qed.

(** * Array accesses *)

Lemma load_block {A : Type} b (a : block A) (i : Z) (k : nat) (v : A) :
  i = Z.of_nat k → a !! k = Some (Some v) → load b a i = Ret v.
Proof.
  intros -> Hv. unfold load. rewrite decide_True by lia.
  by rewrite Nat2Z.id, Hv.
Qed.

Lemma load_of_list {A : Type} b (l : list A) (i : Z) (k : nat) (v : A) :
  i = Z.of_nat k → l !! k = Some v → load b (of_list l) i = Ret v.
Proof.
  intros Hi Hv. apply (load_block _ _ _ k); [done|].
  unfold of_list. by rewrite list_lookup_fmap, Hv.
Qed.

Lemma store_block {A : Type} b (a : block A) (i : Z) (k : nat) (v : A) :
  i = Z.of_nat k → (k < length a)%nat →
  store b a i v = Ret (<[k := Some v]> a).
Proof.
  intros -> Hk. unfold store. rewrite decide_True by lia.
  by rewrite Nat2Z.id.
Qed.

(** * The transition on a correct table *)

Section Transition.
Variables (P : list ascii) (failure : block Z) (s : list ascii) (c : ascii).
Variable B : nat.
Hypothesis B_le : (B ≤ length P)%nat.
Hypothesis table : table_upto P failure (B - 1).

(** The loop walks down the prefixes of [P] that end [s], from the one of
    length [k], and stops at the longest one that [c] extends, or at the empty
    one. *)
Lemma fallback_spec fuel k :
  (k < B)%nat → matched P s k → extension_bound P s c B k →
  (k < fuel)%nat →
  ∃ k1, fallback fuel (of_list P) failure (Ret c) (Z.of_nat k - 1)
        = Ret (Z.of_nat k1 - 1)
        ∧ (k1 ≤ k)%nat ∧ matched P s k1 ∧ extension_bound P s c B k1
        ∧ (k1 = 0%nat ∨ P !! k1 = Some c).
Proof.
  revert k. induction fuel as [|fuel IH]; intros k HkB Hm Hb Hfuel; [lia|].
  simpl. destruct (decide (Z.of_nat k - 1 > -1)) as [Hpos|Hneg].
  - destruct (lookup_lt_is_Some_2 P k) as [a Ha]; [lia|].
    rewrite (load_of_list _ _ _ k a) by (done || lia). simpl.
    destruct (Ascii.eqb_spec a c) as [->|Hne].
    + exists k. eauto 10.
    + destruct (table (k - 1)%nat) as (k' & Hk' & Hlt & Hm' & Hmax); [lia|].
      replace (S (k - 1)) with k in * by lia.
      rewrite (load_block _ _ _ (k - 1)%nat (Z.of_nat k' - 1)) by (done || lia).
      simpl. destruct (IH k') as (k1 & Hrun & Hle & Hm1 & Hb1 & Hex).
      * lia.
      * by eapply matched_trans.
      * intros x Hx Hmx Hcx.
        assert (x ≠ k) by (intros ->; congruence).
        specialize (Hb x Hx Hmx Hcx).
        apply Hmax; [lia|]. eapply matched_chain; [exact Hm | lia | done].
      * lia.
      * exists k1. rewrite Hrun. split; [done|]. split; [lia|]. done.
  - exists k. replace k with 0%nat in * by lia. eauto 10.
Qed.

(** From the longest prefix below [B] ending [s], the two statements reach
    the longest prefix, of length [B] at most, ending [s ++ [c]]. *)
Lemma transition_spec fuel k :
  longest_below P s B k → (k < fuel)%nat →
  ∃ i1 k2, fallback fuel (of_list P) failure (Ret c) (Z.of_nat k - 1) = Ret i1
           ∧ advance (of_list P) (Ret c) i1 = Ret (Z.of_nat k2 - 1)
           ∧ longest_below P (s ++ [c]) (S B) k2.
Proof.
  intros (HkB & Hm & Hmax) Hfuel.
  destruct (fallback_spec fuel k) as (k1 & Hrun & Hle & Hm1 & Hb1 & Hex);
    [done | done | by intros k' ? ? _; apply Hmax | done |].
  exists (Z.of_nat k1 - 1). unfold advance.
  destruct (lookup_lt_is_Some_2 P k1) as [a Ha]; [lia|].
  rewrite (load_of_list _ _ _ k1 a) by (done || lia). simpl.
  destruct (Ascii.eqb_spec a c) as [->|Hne].
  - exists (S k1). split; [done|]. split; [f_equal; lia|].
    split; [lia|]. split.
    + by apply (matched_snoc P s c k1 c).
    + intros [|k'] Hk' Hm'; [lia|].
      destruct (lookup_lt_is_Some_2 P k') as [a' Ha']; [lia|].
      destruct (proj1 (matched_snoc P s c k' a' Ha') Hm') as [Hm'' Heq].
      assert (k' ≤ k1)%nat by (apply Hb1; [lia | done | congruence]). lia.
  - destruct Hex as [->|Hc]; [|congruence].
    exists 0%nat. split; [done|]. split; [done|].
    split; [lia|]. split; [apply matched_0|].
    intros [|k'] Hk' Hm'; [lia|].
    destruct (lookup_lt_is_Some_2 P k') as [a' Ha']; [lia|].
    destruct (proj1 (matched_snoc P s c k' a' Ha') Hm') as [Hm'' Heq].
    assert (k' = 0)%nat by (apply Nat.le_0_r, Hb1; [lia | done | congruence]).
    congruence.
Qed.

End Transition.

Lemma table_upto_mono P failure t t' :
  (t' ≤ t)%nat → table_upto P failure t → table_upto P failure t'.
Proof. intros Hle H x Hx. apply H. lia. Qed.

(** * [kmp_failure] builds the table of longest borders *)

Lemma kmp_failure_loop_spec (P : list ascii) fuel rounds :
  ∀ (j k : nat) (failure : block Z),
    (1 ≤ j)%nat → (j + rounds = length P)%nat → length failure = length P →
    (length P ≤ fuel)%nat →
    table_upto P failure j → longest_below P (take j P) j k →
    ∃ failure',
      kmp_failure_loop fuel (of_list P) rounds (Z.of_nat j) (Z.of_nat k - 1)
        failure = Ret failure'
      ∧ length failure' = length P ∧ table_upto P failure' (length P).
Proof.
  induction rounds as [|rounds IH]; intros j k failure Hj Hrounds Hlen Hfuel Ht Hk.
  - exists failure. split; [done|]. split; [done|].
    by replace (length P) with j by lia.
  - destruct (lookup_lt_is_Some_2 P j) as [c Hc]; [lia|].
    destruct (transition_spec P failure (take j P) c j) with (fuel := fuel) (k := k)
      as (i1 & k2 & Hfb & Hadv & Hk2); [lia | | done | |].
    { eapply table_upto_mono; [|done]. lia. }
    { destruct Hk. lia. }
    rewrite <- (take_S_r _ _ _ Hc) in Hk2.
    simpl. rewrite (load_of_list _ _ _ j c) by done.
    rewrite Hfb. simpl. rewrite Hadv. simpl.
    rewrite (store_block _ _ _ j) by (done || lia). simpl.
    replace (Z.of_nat j + 1) with (Z.of_nat (S j)) by lia.
    apply IH; [lia | lia | by rewrite length_insert | done | | done].
    intros x Hx. destruct (decide (x = j)) as [->|Hne].
    + exists k2. split; [|done]. apply list_lookup_insert_eq. lia.
    + destruct (Ht x) as (kx & Hkx & Hl); [lia|].
      exists kx. split; [|done]. by rewrite list_lookup_insert_ne.
Qed.

Lemma kmp_failure_spec (P : list ascii) fuel (failure : block Z) :
  (1 ≤ length P)%nat → length failure = length P → (length P ≤ fuel)%nat →
  ∃ failure',
    kmp_failure fuel (of_list P) (Z.of_nat (length P)) failure = Ret failure'
    ∧ length failure' = length P ∧ table_upto P failure' (length P).
Proof.
  intros Hm Hlen Hfuel. unfold kmp_failure.
  rewrite (store_block _ _ _ 0%nat) by (done || lia). simpl.
  replace (Z.to_nat (Z.of_nat (length P) - 1)) with (length P - 1)%nat by lia.
  apply (kmp_failure_loop_spec P fuel (length P - 1) 1 0);
    [lia | lia | by rewrite length_insert | done | |].
  - intros x Hx. exists 0%nat. replace x with 0%nat by lia.
    split; [apply list_lookup_insert_eq; lia|].
    split; [lia|]. split; [apply matched_0 | lia].
  - split; [lia|]. split; [apply matched_0 | lia].
Qed.

(** * The occurrences of a pattern *)

Lemma filter_ext_in {A : Type} (Q1 Q2 : A → Prop)
    `{!∀ x, Decision (Q1 x), !∀ x, Decision (Q2 x)} (l : list A) :
  (∀ x, x ∈ l → Q1 x ↔ Q2 x) → filter Q1 l = filter Q2 l.
Proof.
  induction l as [|a l IH]; intros HQ; [done|].
  rewrite !filter_cons. rewrite IH by (intros; apply HQ; by right).
  apply decide_ext, HQ. by left.
Qed.

Lemma occurs_at_end (P s : list ascii) :
  (length P ≤ length s)%nat →
  occurs_at P s (length s - length P) ↔ P `suffix_of` s.
Proof.
  intros Hle. unfold occurs_at.
  rewrite take_ge by (rewrite length_drop; lia). split.
  - intros <-. apply suffix_drop.
  - intros [l ->]. rewrite length_app.
    replace (length l + length P - length P)%nat with (length l) by lia.
    apply drop_app_length.
Qed.

Lemma occurrences_snoc (P s : list ascii) (c : ascii) :
  (1 ≤ length P)%nat →
  occurrences P (s ++ [c])
  = occurrences P s
    ++ (if decide (P `suffix_of` s ++ [c]) then [S (length s) - length P]%nat
        else []).
Proof.
  intros Hm. unfold occurrences. rewrite length_app. simpl.
  destruct (decide (length P ≤ S (length s))%nat) as [Hle|Hgt].
  - replace (S (length s + 1) - length P)%nat
      with (S (S (length s) - length P)) by lia.
    rewrite seq_S, filter_app. f_equal.
    + apply filter_ext_in. intros o Ho. apply elem_of_seq in Ho.
      unfold occurs_at. rewrite drop_app, take_app_le; [done|].
      rewrite length_drop. lia.
    + rewrite filter_singleton; [|exact []]. simpl. apply decide_ext.
      rewrite <- occurs_at_end by (rewrite length_app; simpl; lia).
      rewrite length_app. simpl.
      by replace (length s + 1 - length P)%nat
        with (S (length s) - length P)%nat by lia.
  - replace (S (length s + 1) - length P)%nat with 0%nat by lia.
    replace (S (length s) - length P)%nat with 0%nat by lia.
    simpl. rewrite decide_False; [done|].
    intros H%suffix_length. rewrite length_app in H. simpl in H. lia.
Qed.

Lemma occurrences_length (P T : list ascii) :
  (length (occurrences P T) ≤ S (length T) - length P)%nat.
Proof.
  unfold occurrences. etrans; [apply length_filter|]. by rewrite length_seq.
Qed.

Lemma elem_of_occurrences (P T : list ascii) (o : nat) :
  (1 ≤ length P)%nat →
  o ∈ occurrences P T ↔ occurs_at P T o.
Proof.
  intros Hm. unfold occurrences. rewrite list_elem_of_filter, elem_of_seq.
  split; [by intros [? _]|]. intros Ho. split; [done|].
  unfold occurs_at in Ho. apply (f_equal length) in Ho.
  rewrite length_take, length_drop in Ho. lia.
Qed.

(** * [kmp_match] records the occurrences *)

Lemma recorded_length l (output : block Z) :
  (length l ≤ length output)%nat → length (recorded l output) = length output.
Proof.
  intros Hle. unfold recorded, of_list, offsets.
  rewrite length_app, !length_fmap, length_drop. lia.
Qed.

Lemma filled_snoc {A : Type} (l : list A) (x : A) (a : block A) :
  (length l < length a)%nat →
  <[length l := Some x]> (of_list l ++ drop (length l) a)
  = of_list (l ++ [x]) ++ drop (S (length l)) a.
Proof.
  intros Hlt. unfold of_list.
  destruct (lookup_lt_is_Some_2 a (length l)) as [y Hy]; [done|].
  rewrite (drop_S _ _ _ Hy).
  rewrite insert_app_r_alt by (rewrite length_fmap; lia).
  rewrite length_fmap, Nat.sub_diag. simpl.
  by rewrite fmap_app, <- (assoc_L (++)).
Qed.

Lemma recorded_snoc l (o : nat) (output : block Z) :
  (length l < length output)%nat →
  <[length l := Some (Z.of_nat o)]> (recorded l output)
  = recorded (l ++ [o]) output.
Proof.
  intros Hlt. unfold recorded, offsets.
  rewrite <- (length_fmap Z.of_nat l) at 1 2.
  rewrite filled_snoc by (by rewrite length_fmap).
  by rewrite fmap_app, !length_fmap, length_app, Nat.add_1_r.
Qed.

Section Match.
Variables (P T : list ascii) (failure output : block Z) (fuel : nat).
Hypothesis P_nonempty : (1 ≤ length P)%nat.
Hypothesis table : table_upto P failure (length P).
Hypothesis enough_fuel : (length P ≤ fuel)%nat.
Hypothesis room : (S (length T) - length P ≤ length output)%nat.

(** After [j] rounds the count and the first cells of [output] list the
    occurrences within [T[0..j-1]], and [i + 1] is the length of the longest
    prefix of [P], short of [P], ending there. *)
Lemma kmp_match_loop_spec rounds :
  ∀ (j k : nat),
    (j + rounds = length T)%nat →
    longest_below P (take j T) (length P) k →
    kmp_match_loop fuel (of_list T) (of_list P) (Z.of_nat (length P))
      failure rounds (Z.of_nat j) (Z.of_nat k - 1)
      (Z.of_nat (length (occurrences P (take j T))))
      (recorded (occurrences P (take j T)) output)
    = Ret (Z.of_nat (length (occurrences P T)),
           recorded (occurrences P T) output).
Proof.
  induction rounds as [|rounds IH]; intros j k Hj Hk.
  - simpl. by rewrite take_ge by lia.
  - destruct (lookup_lt_is_Some_2 T j) as [c Hc]; [lia|].
    destruct (transition_spec P failure (take j T) c (length P))
      with (fuel := fuel) (k := k) as (i1 & k2 & Hfb & Hadv & Hk2);
      [lia | by eapply table_upto_mono; [|done]; lia | done
      | destruct Hk; lia |].
    rewrite <- (take_S_r _ _ _ Hc) in Hk2.
    assert (length (take j T) = j) as Hlen by (rewrite length_take_le; lia).
    pose proof (occurrences_snoc P (take j T) c P_nonempty) as Hocc.
    rewrite <- (take_S_r _ _ _ Hc), Hlen in Hocc.
    pose proof (occurrences_length P (take (S j) T)) as Hroom.
    rewrite length_take_le in Hroom by lia.
    simpl. rewrite (load_of_list _ _ _ j c) by done.
    rewrite Hfb. simpl. rewrite Hadv. simpl.
    replace (Z.of_nat j + 1) with (Z.of_nat (S j)) by lia.
    destruct Hk2 as (Hk2lt & Hk2m & Hk2max).
    destruct (decide (Z.of_nat k2 - 1 = Z.of_nat (length P) - 1))
      as [Heq|Hne].
    + assert (k2 = length P) as -> by lia.
      assert (P `suffix_of` take (S j) T) as Hsuf.
      { destruct Hk2m as [_ H]. by rewrite take_ge in H by lia. }
      rewrite decide_True in Hocc by done.
      rewrite Hocc, length_app in Hroom. simpl in Hroom.
      pose proof (suffix_length _ _ Hsuf) as HmSj.
      rewrite length_take_le in HmSj by lia.
      rewrite (store_block _ _ _ (length (occurrences P (take j T))))
        by (done || rewrite recorded_length; lia).
      simpl.
      replace (Z.of_nat j - Z.of_nat (length P) + 1)
        with (Z.of_nat (S j - length P)) by lia.
      rewrite recorded_snoc by lia.
      destruct (table (length P - 1)%nat) as (k3 & Hk3 & Hl3); [lia|].
      replace (S (length P - 1)) with (length P) in Hl3 by lia.
      rewrite (load_block _ _ _ (length P - 1)%nat (Z.of_nat k3 - 1))
        by (done || lia).
      simpl. rewrite <- Hocc.
      replace (Z.of_nat (length (occurrences P (take j T))) + 1)
        with (Z.of_nat (length (occurrences P (take (S j) T))))
        by (rewrite Hocc, length_app; simpl; lia).
      apply IH; [lia|]. by apply longest_below_chain.
    + assert (k2 < length P)%nat as Hlt by lia.
      rewrite decide_False in Hocc.
      * rewrite app_nil_r in Hocc. rewrite <- Hocc.
        apply IH; [lia|]. by apply longest_below_weaken.
      * intros Hsuf. assert (length P ≤ k2)%nat; [|lia].
        apply Hk2max; [lia|]. split; [done|]. by rewrite take_ge by lia.
Qed.

End Match.

Lemma occurrences_nil (P : list ascii) :
  (1 ≤ length P)%nat → occurrences P [] = [].
Proof.
  intros Hm. unfold occurrences. simpl.
  by replace (1 - length P)%nat with 0%nat by lia.
Qed.

Lemma StronglySorted_seq (a n : nat) : StronglySorted lt (seq a n).
Proof.
  revert a. induction n as [|n IH]; intros a; simpl; constructor; [done|].
  apply Forall_forall. intros x Hx%elem_of_seq. lia.
Qed.

Lemma StronglySorted_filter {A : Type} (R : relation A) (Q : A → Prop)
    `{!∀ x, Decision (Q x)} (l : list A) :
  StronglySorted R l → StronglySorted R (filter Q l).
Proof.
  induction 1 as [|x l Hl IH Hx]; [constructor|].
  rewrite filter_cons. case_decide; [|done]. constructor; [done|].
  apply Forall_forall. intros y [_ Hy]%list_elem_of_filter.
  by eapply Forall_forall in Hx.
Qed.

Lemma occurrences_sorted (P T : list ascii) :
  StronglySorted Z.lt (offsets (occurrences P T)).
Proof.
  apply (StronglySorted_fmap _ lt); [lia|].
  apply StronglySorted_filter, StronglySorted_seq.
Qed.

Lemma occurrences_NoDup (P T : list ascii) : NoDup (offsets (occurrences P T)).
Proof. apply NoDup_fmap_2; [apply _|]. apply NoDup_filter, NoDup_seq. Qed.

Lemma malloc_length {A : Type} (cells : nat) :
  length (@malloc A true (Z.of_nat cells)) = cells.
Proof. unfold malloc. by rewrite length_replicate, Nat2Z.id. Qed.

Lemma kmp_match_spec (P T : list ascii) (output : block Z) (fuel : nat) :
  (1 ≤ length P)%nat → (length P ≤ fuel)%nat →
  (S (length T) - length P ≤ length output)%nat →
  kmp_match fuel true (of_list T) (Z.of_nat (length T)) (of_list P)
    (Z.of_nat (length P)) output
  = Ret (Z.of_nat (length (occurrences P T)),
         recorded (occurrences P T) output).
Proof.
  intros Hm Hfuel Hroom. unfold kmp_match.
  destruct (kmp_failure_spec P fuel (malloc true (Z.of_nat (length P))))
    as (failure & -> & Hlen & Htable);
    [done | apply malloc_length | done |].
  simpl. rewrite Nat2Z.id.
  pose proof (kmp_match_loop_spec P T failure output fuel Hm Htable Hfuel Hroom
                (length T) 0 0) as Hloop.
  simpl in Hloop. rewrite occurrences_nil in Hloop by done.
  apply Hloop; [done|]. apply longest_below_nil. lia.
Qed.

(** * Termination on every input *)

Lemma load_Ret_inv {A : Type} b (a : block A) (i : Z) (v : A) :
  load b a i = Ret v → 0 ≤ i ∧ a !! Z.to_nat i = Some (Some v).
Proof.
  unfold load. case_decide; [|done].
  destruct (a !! Z.to_nat i) as [[w|]|]; [|done..].
  intros [= ->]. done.
Qed.

Lemma load_not_OutOfFuel {A : Type} b (a : block A) (i : Z) :
  load b a i ≠ OutOfFuel.
Proof.
  unfold load. case_decide; [|done].
  by destruct (a !! Z.to_nat i) as [[w|]|].
Qed.

Lemma store_Ret_inv {A : Type} b (a a' : block A) (i : Z) (v : A) :
  store b a i v = Ret a' →
  0 ≤ i < Z.of_nat (length a) ∧ a' = <[Z.to_nat i := Some v]> a.
Proof. unfold store. case_decide; [|done]. intros [= <-]. done. Qed.

Lemma store_not_OutOfFuel {A : Type} b (a : block A) (i : Z) (v : A) :
  store b a i v ≠ OutOfFuel.
Proof. unfold store. by case_decide. Qed.

Lemma fallback_le fuel P failure rhs t :
  decreasing_upto failure t →
  ∀ i i1, i < Z.of_nat t → fallback fuel P failure rhs i = Ret i1 → i1 ≤ i.
Proof.
  intros Hdec. induction fuel as [|fuel IH]; intros i i1 Hi; [done|].
  simpl. case_decide; [|intros [= ->]; lia].
  destruct (load BufP P (i + 1)) as [a| |]; simpl; [|done..].
  destruct rhs as [c| |] eqn:Hrhs; simpl; [|done..].
  destruct (Ascii.eqb a c); [intros [= ->]; lia|].
  destruct (load BufFailure failure i) as [i'| |] eqn:Hload; simpl; [|done..].
  apply load_Ret_inv in Hload as [Hi0 Hload].
  apply Hdec in Hload; [|lia]. intros Hrun.
  apply IH in Hrun; lia.
Qed.

Lemma fallback_terminates fuel P failure rhs t :
  decreasing_upto failure t → rhs ≠ OutOfFuel →
  ∀ i, i < Z.of_nat t → (Z.to_nat (i + 1) < fuel)%nat →
       fallback fuel P failure rhs i ≠ OutOfFuel.
Proof.
  intros Hdec Hrhs. induction fuel as [|fuel IH]; intros i Hi Hfuel; [lia|].
  simpl. case_decide; [|done].
  pose proof (load_not_OutOfFuel BufP P (i + 1)).
  destruct (load BufP P (i + 1)) as [a| |]; simpl; [|done..].
  destruct rhs as [c| |]; simpl; [|done..].
  destruct (Ascii.eqb a c); [done|].
  pose proof (load_not_OutOfFuel BufFailure failure i).
  destruct (load BufFailure failure i) as [i'| |] eqn:Hload; simpl; [|done..].
  apply load_Ret_inv in Hload as [Hi0 Hload].
  apply Hdec in Hload; [|lia]. apply IH; lia.
Qed.

Lemma advance_le P rhs i i2 : advance P rhs i = Ret i2 → i2 ≤ i + 1.
Proof.
  unfold advance.
  destruct (load BufP P (i + 1)) as [a| |]; simpl; [|done..].
  destruct rhs as [c| |]; simpl; [|done..].
  intros [= <-]. destruct (Ascii.eqb a c); lia.
Qed.

Lemma advance_not_OutOfFuel P rhs i :
  rhs ≠ OutOfFuel → advance P rhs i ≠ OutOfFuel.
Proof.
  intros Hrhs. unfold advance.
  pose proof (load_not_OutOfFuel BufP P (i + 1)).
  destruct (load BufP P (i + 1)) as [a| |]; simpl; [|done..].
  by destruct rhs as [c| |].
Qed.

Lemma decreasing_upto_insert failure (j : nat) (v : Z) :
  decreasing_upto failure j → v < Z.of_nat j →
  decreasing_upto (<[j := Some v]> failure) (S j).
Proof.
  intros Hdec Hv x w Hx. destruct (decide (x = j)) as [->|Hne].
  - intros Hw. destruct (decide (j < length failure)%nat).
    + rewrite list_lookup_insert_eq in Hw by done. by simplify_eq.
    + apply lookup_lt_Some in Hw. rewrite length_insert in Hw. lia.
  - rewrite list_lookup_insert_ne by done. apply Hdec. lia.
Qed.

Lemma load_Fault_inv {A : Type} b (a : block A) (i : Z) b' idx :
  load b a i = Fault b' idx → b' = b.
Proof.
  unfold load. case_decide; [|by intros [= <- _]].
  destruct (a !! Z.to_nat i) as [[w|]|]; [done|by intros [= <- _]..].
Qed.

Lemma store_Fault_inv {A : Type} b (a : block A) (i : Z) (v : A) b' idx :
  store b a i v = Fault b' idx → b' = b.
Proof. unfold store. case_decide; [done|]. by intros [= <- _]. Qed.

Lemma fallback_Fault fuel P failure bT (T : block ascii) (j i : Z) b idx :
  fallback fuel P failure (load bT T j) i = Fault b idx →
  b = BufP ∨ b = bT ∨ b = BufFailure.
Proof.
  revert i. induction fuel as [|fuel IH]; intros i; [done|].
  simpl. case_decide; [|done].
  destruct (load BufP P (i + 1)) as [a| |] eqn:Ha; simpl;
    [|apply load_Fault_inv in Ha; intros [= <- _]; auto|done].
  destruct (load bT T j) as [c| |] eqn:Hc; simpl;
    [|apply load_Fault_inv in Hc; intros [= <- _]; auto|done].
  destruct (Ascii.eqb a c); [done|].
  destruct (load BufFailure failure i) as [i'| |] eqn:Hi; simpl;
    [|apply load_Fault_inv in Hi; intros [= <- _]; auto|done].
  apply IH.
Qed.

Lemma advance_Fault P bT (T : block ascii) (j i : Z) b idx :
  advance P (load bT T j) i = Fault b idx → b = BufP ∨ b = bT.
Proof.
  unfold advance.
  destruct (load BufP P (i + 1)) as [a| |] eqn:Ha; simpl;
    [|apply load_Fault_inv in Ha; intros [= <- _]; auto|done].
  destruct (load bT T j) as [c| |] eqn:Hc; simpl;
    [|apply load_Fault_inv in Hc; intros [= <- _]; auto|done].
  done.
Qed.

Lemma kmp_failure_loop_safe fuel P rounds :
  ∀ (j : nat) (i : Z) (failure : block Z),
    (1 ≤ j)%nat → i + 1 < Z.of_nat j → decreasing_upto failure j →
    safe_table fuel (j + rounds)
      (kmp_failure_loop fuel P rounds (Z.of_nat j) i failure).
Proof.
  induction rounds as [|rounds IH]; intros j i failure Hj Hi Hdec.
  - simpl. by rewrite Nat.add_0_r.
  - simpl.
    pose proof (fallback_terminates fuel P failure (load BufP P (Z.of_nat j)) j
                  Hdec (load_not_OutOfFuel _ _ _) i) as Hterm.
    pose proof (fallback_le fuel P failure (load BufP P (Z.of_nat j)) j
                  Hdec i) as Hle.
    destruct (fallback fuel P failure (load BufP P (Z.of_nat j)) i)
      as [i1| |] eqn:Hfb; simpl;
      [|apply fallback_Fault in Hfb; tauto
       |destruct (decide (S fuel < j + S rounds)%nat); [done|];
        exfalso; apply Hterm; [lia | lia | done]].
    specialize (Hle i1 ltac:(lia) eq_refl).
    pose proof (advance_not_OutOfFuel P (load BufP P (Z.of_nat j)) i1
                  (load_not_OutOfFuel _ _ _)) as Hadv.
    pose proof (advance_le P (load BufP P (Z.of_nat j)) i1) as Hle2.
    destruct (advance P (load BufP P (Z.of_nat j)) i1) as [i2| |] eqn:Hi2;
      simpl; [|apply advance_Fault in Hi2; tauto|done].
    specialize (Hle2 i2 eq_refl).
    pose proof (store_not_OutOfFuel BufFailure failure (Z.of_nat j) i2).
    destruct (store BufFailure failure (Z.of_nat j) i2) as [failure1| |]
      eqn:Hstore; simpl; [|apply store_Fault_inv in Hstore; auto|done].
    apply store_Ret_inv in Hstore as [_ ->]. rewrite Nat2Z.id.
    replace (Z.of_nat j + 1) with (Z.of_nat (S j)) by lia.
    replace (j + S rounds)%nat with (S j + rounds)%nat by lia.
    apply IH; [lia | lia |]. apply decreasing_upto_insert; [done | lia].
Qed.

Lemma decreasing_upto_mono failure t t' :
  (t' ≤ t)%nat → decreasing_upto failure t → decreasing_upto failure t'.
Proof. intros Hle H x v Hx. apply H. lia. Qed.

Lemma kmp_failure_safe fuel P m failure :
  safe_table fuel (Z.to_nat m) (kmp_failure fuel P m failure).
Proof.
  unfold kmp_failure.
  pose proof (store_not_OutOfFuel BufFailure failure 0 (-1)).
  destruct (store BufFailure failure 0 (-1)) as [failure0| |] eqn:Hstore;
    simpl; [|apply store_Fault_inv in Hstore; auto|done].
  apply store_Ret_inv in Hstore as [_ ->].
  pose proof (kmp_failure_loop_safe fuel P (Z.to_nat (m - 1)) 1 (-1)
                (<[Z.to_nat 0 := Some (-1)]> failure)) as Hloop.
  unfold safe_table in *. change (Z.of_nat 1) with 1 in Hloop.
  destruct (kmp_failure_loop fuel P (Z.to_nat (m - 1)) 1 (-1)
              (<[Z.to_nat 0 := Some (-1)]> failure)) as [failure'| |].
  - eapply decreasing_upto_mono; [|apply Hloop]; [lia | lia | lia |].
    apply (decreasing_upto_insert _ 0); [|lia]. intros x v Hx. lia.
  - apply Hloop; [lia | lia |].
    apply (decreasing_upto_insert _ 0); [|lia]. intros x v Hx. lia.
  - assert (S fuel < 1 + Z.to_nat (m - 1))%nat; [|lia].
    apply Hloop; [lia | lia |].
    apply (decreasing_upto_insert _ 0); [|lia]. intros x v Hx. lia.
Qed.

Lemma malloc_null {A : Type} (ok : bool) (m : Z) :
  ok = false ∨ m ≤ 0 → @malloc A ok m = [].
Proof.
  intros [->|Hm]; [done|]. unfold malloc. destruct ok; [|done].
  by replace (Z.to_nat m) with 0%nat by lia.
Qed.

Lemma kmp_match_loop_safe fuel T P m failure n len rounds :
  1 ≤ m → decreasing_upto failure (Z.to_nat m) →
  Z.max 0 (n - m + 1) ≤ Z.of_nat len →
  ∀ (j : nat) (i matches : Z) (output : block Z),
    i + 1 < m → i + 1 ≤ Z.of_nat j →
    0 ≤ matches ≤ Z.max 0 (Z.of_nat j - m + 1) →
    Z.of_nat (j + rounds) = n → length output = len →
    safe_outcome fuel n m len
      (kmp_match_loop fuel T P m failure rounds (Z.of_nat j) i matches output).
Proof.
  intros Hm Hdec Hroom.
  induction rounds as [|rounds IH]; intros j i matches output Him Hij Hmat Hn Hlen.
  - simpl. split; [lia | done].
  - simpl.
    pose proof (fallback_terminates fuel P failure (load BufT T (Z.of_nat j))
                  (Z.to_nat m) Hdec (load_not_OutOfFuel _ _ _) i) as Hterm.
    pose proof (fallback_le fuel P failure (load BufT T (Z.of_nat j))
                  (Z.to_nat m) Hdec i) as Hle.
    destruct (fallback fuel P failure (load BufT T (Z.of_nat j)) i)
      as [i1| |] eqn:Hfb; simpl;
      [|apply fallback_Fault in Hfb; by destruct Hfb as [->|[->| ->]]
       |destruct (decide (fuel < Z.to_nat m)%nat); [done|];
        exfalso; apply Hterm; [lia | lia | done]].
    specialize (Hle i1 ltac:(lia) eq_refl).
    pose proof (advance_not_OutOfFuel P (load BufT T (Z.of_nat j)) i1
                  (load_not_OutOfFuel _ _ _)) as Hadv.
    pose proof (advance_le P (load BufT T (Z.of_nat j)) i1) as Hle2.
    destruct (advance P (load BufT T (Z.of_nat j)) i1) as [i2| |] eqn:Hi2;
      simpl; [|apply advance_Fault in Hi2; by destruct Hi2 as [->| ->]|done].
    specialize (Hle2 i2 eq_refl).
    replace (Z.of_nat j + 1) with (Z.of_nat (S j)) by lia.
    case_decide as Hfull.
    + unfold store. rewrite decide_True by lia. simpl.
      pose proof (load_not_OutOfFuel BufFailure failure i2).
      destruct (load BufFailure failure i2) as [i3| |] eqn:Hi3; simpl;
        [|apply load_Fault_inv in Hi3; by subst|done].
      apply load_Ret_inv in Hi3 as [Hi20 Hi3]. apply Hdec in Hi3; [|lia].
      apply IH; [lia | lia | lia | lia |]. by rewrite length_insert.
    + apply IH; [lia | lia | lia | lia | done].
Qed.

Lemma kmp_match_loop_terminates fuel T P m failure rounds :
  1 ≤ m → decreasing_upto failure (Z.to_nat m) → (Z.to_nat m ≤ fuel)%nat →
  ∀ (j i matches : Z) (output : block Z),
    i + 1 < m →
    kmp_match_loop fuel T P m failure rounds j i matches output ≠ OutOfFuel.
Proof.
  intros Hm Hdec Hfuel.
  induction rounds as [|rounds IH]; intros j i matches output Him; [done|].
  simpl.
  pose proof (fallback_terminates fuel P failure (load BufT T j)
                (Z.to_nat m) Hdec (load_not_OutOfFuel _ _ _) i
                ltac:(lia) ltac:(lia)) as Hterm.
  pose proof (fallback_le fuel P failure (load BufT T j)
                (Z.to_nat m) Hdec i) as Hle.
  destruct (fallback fuel P failure (load BufT T j) i) as [i1| |];
    simpl; [|done..].
  specialize (Hle i1 ltac:(lia) eq_refl).
  pose proof (advance_not_OutOfFuel P (load BufT T j) i1
                (load_not_OutOfFuel _ _ _)) as Hadv.
  pose proof (advance_le P (load BufT T j) i1) as Hle2.
  destruct (advance P (load BufT T j) i1) as [i2| |]; simpl; [|done..].
  specialize (Hle2 i2 eq_refl).
  case_decide as Hfull; [|apply IH; lia].
  pose proof (store_not_OutOfFuel BufOutput output matches (j - m + 1)).
  destruct (store BufOutput output matches (j - m + 1)) as [output'| |];
    simpl; [|done..].
  pose proof (load_not_OutOfFuel BufFailure failure i2).
  destruct (load BufFailure failure i2) as [i3| |] eqn:Hi3; simpl; [|done..].
  apply load_Ret_inv in Hi3 as [Hi20 Hi3]. apply Hdec in Hi3; [|lia].
  apply IH. lia.
Qed.

Lemma kmp_match_safe fuel heap_ok T n P m (output : block Z) :
  0 ≤ n → Z.max 0 (n - m + 1) ≤ Z.of_nat (length output) →
  safe_outcome fuel n m (length output)
    (kmp_match fuel heap_ok T n P m output).
Proof.
  intros Hn Hroom. unfold kmp_match.
  destruct (decide (heap_ok = true ∧ 1 ≤ m)) as [[-> Hm]|Hnull].
  - pose proof (kmp_failure_safe fuel P m (malloc true m)) as Hsafe.
    destruct (kmp_failure fuel P m (malloc true m)) as [failure| |];
      simpl in *; [|by destruct Hsafe as [->| ->]|lia].
    apply (kmp_match_loop_safe fuel T P m failure n (length output)
             (Z.to_nat n) Hm Hsafe Hroom 0%nat); [lia | lia | lia | lia | done].
  - rewrite malloc_null; [done|]. destruct heap_ok; [right; lia | by left].
Qed.

(** * The heap *)

Lemma deref_insert_eq {A : Type} (store : gmap loc (block A)) p (b : block A) :
  p ≠ null → deref (<[p := b]> store) p = b.
Proof.
  intros Hp. unfold deref. rewrite decide_False by done.
  by rewrite lookup_insert_eq.
Qed.

Lemma deref_insert_ne {A : Type} (store : gmap loc (block A)) p q
    (b : block A) :
  p ≠ q → deref (<[p := b]> store) q = deref store q.
Proof. intros Hp. unfold deref. by rewrite lookup_insert_ne. Qed.

Lemma deref_cells {A : Type} (store : gmap loc (block A)) p :
  deref store p ≠ [] → p ≠ null ∧ p ∈ dom store.
Proof.
  unfold deref. case_decide; [done|]. intros Hne. split; [done|].
  apply elem_of_dom. by destruct (store !! p).
Qed.

Lemma alloc_fresh {A : Type} (cells : Z) (store : gmap loc (block A)) :
  ∃ p, alloc true cells store = (<[p := malloc true cells]> store, p)
       ∧ p ≠ null ∧ p ∉ dom store.
Proof.
  exists (fresh ({[null]} ∪ dom store)). split; [done|].
  pose proof (is_fresh ({[null]} ∪ dom store)) as Hfresh.
  set_solver.
Qed.

Lemma of_list_length {A : Type} (l : list A) : length (of_list l) = length l.
Proof. apply length_fmap. Qed.

Lemma kmp_build_copy_spec (P : list ascii) (dst : block ascii) rounds :
  ∀ i : nat,
    (i + rounds = length P)%nat → length dst = length P →
    kmp_build_copy (of_list P) rounds (Z.of_nat i)
      (of_list (take i P) ++ drop i dst)
    = Ret (of_list P).
Proof.
  induction rounds as [|rounds IH]; intros i Hi Hlen.
  - simpl. rewrite take_ge, drop_ge by lia. by rewrite app_nil_r.
  - destruct (lookup_lt_is_Some_2 P i) as [c Hc]; [lia|].
    assert (length (take i P) = i) as Hi' by (rewrite length_take_le; lia).
    simpl. rewrite (load_of_list _ _ _ i c) by done. simpl.
    rewrite (store_block _ _ _ i);
      [|done|rewrite length_app, of_list_length, length_drop; lia].
    simpl. pose proof (filled_snoc (take i P) c dst) as Hfill.
    rewrite Hi' in Hfill. rewrite Hfill by lia.
    rewrite <- (take_S_r _ _ _ Hc).
    replace (Z.of_nat i + 1) with (Z.of_nat (S i)) by lia.
    apply IH; [lia | done].
Qed.

Lemma kmp_build_spec fuel (h : heap) (pP : loc) (P : list ascii) :
  (1 ≤ length P)%nat → deref (chars h) pP = of_list P →
  (length P ≤ fuel)%nat →
  ∃ sP sF failure,
    kmp_build fuel all_ok h pP (Z.of_nat (length P))
    = Ret (Heap (<[sP := of_list P]> (chars h)) (<[sF := failure]> (ints h)),
           State sP (Z.of_nat (length P)) (-1) sF)
    ∧ sP ≠ null ∧ (sP ∉ dom (chars h)) ∧ sP ≠ pP
    ∧ sF ≠ null ∧ (sF ∉ dom (ints h))
    ∧ length failure = length P ∧ table_upto P failure (length P).
Proof.
  intros Hm HP Hfuel. unfold kmp_build, all_ok.
  cbn [ok_state ok_P ok_failure].
  destruct (alloc_fresh (Z.of_nat (length P)) (chars h))
    as (sP & -> & HsP & HsPdom).
  destruct (alloc_fresh (Z.of_nat (length P)) (ints h))
    as (sF & -> & HsF & HsFdom).
  destruct (deref_cells (chars h) pP) as [HpP HpPdom].
  { rewrite HP. destruct P; [simpl in Hm; lia | done]. }
  assert (sP ≠ pP) as Hne by (intros ->; done).
  rewrite deref_insert_ne, HP, deref_insert_eq by done.
  rewrite Nat2Z.id.
  pose proof (kmp_build_copy_spec P (malloc true (Z.of_nat (length P)))
                (length P) 0 eq_refl (malloc_length _)) as Hcopy.
  change (kmp_build_copy (of_list P) (length P) 0
            (malloc true (Z.of_nat (length P))) = Ret (of_list P)) in Hcopy.
  rewrite Hcopy. cbn [bind].
  unfold update. rewrite !decide_False by done.
  rewrite insert_insert_eq, deref_insert_ne, HP, deref_insert_eq by done.
  destruct (kmp_failure_spec P fuel (malloc true (Z.of_nat (length P))))
    as (failure & -> & Hlen & Htable);
    [done | apply malloc_length | done |].
  cbn [bind]. rewrite decide_False, insert_insert_eq by done.
  exists sP, sF, failure. split_and!; done.
Qed.

Lemma kmp_build_stream_state fuel (h : heap) (pP : loc) (P : list ascii) :
  (1 ≤ length P)%nat → deref (chars h) pP = of_list P →
  (length P ≤ fuel)%nat →
  ∃ h' state,
    kmp_build fuel all_ok h pP (Z.of_nat (length P)) = Ret (h', state)
    ∧ stream_state h' P state ∧ state_i state = -1
    ∧ state_P state ≠ pP ∧ state_P state ≠ null
    ∧ ∀ p, p ≠ state_P state → chars h' !! p = chars h !! p.
Proof.
  intros Hm HP Hfuel.
  destruct (kmp_build_spec fuel h pP P Hm HP Hfuel)
    as (sP & sF & failure & -> & HsP & _ & Hne & HsF & _ & _ & Htable).
  eexists _, _. split; [done|]. simpl.
  split; [|split; [done|split; [done|split; [done|]]]].
  - unfold stream_state. simpl. by rewrite !deref_insert_eq.
  - intros p Hp. by rewrite lookup_insert_ne.
Qed.

(** * [kmp_stream] *)

Lemma fallback_fuel_mono fuel fuel' P failure rhs :
  (fuel ≤ fuel')%nat →
  ∀ i r, fallback fuel P failure rhs i = Ret r →
         fallback fuel' P failure rhs i = Ret r.
Proof.
  revert fuel'. induction fuel as [|fuel IH]; intros fuel' Hle i r; [done|].
  destruct fuel' as [|fuel']; [lia|]. simpl. case_decide; [|done].
  destruct (load BufP P (i + 1)) as [a| |]; simpl; [|done..].
  destruct rhs as [c| |]; simpl; [|done..].
  destruct (Ascii.eqb a c); [done|].
  destruct (load BufFailure failure i) as [i'| |]; simpl; [|done..].
  apply IH. lia.
Qed.

Lemma kmp_stream_fuel_mono fuel fuel' h state T_j j r :
  (fuel ≤ fuel')%nat →
  kmp_stream fuel h state T_j j = Ret r →
  kmp_stream fuel' h state T_j j = Ret r.
Proof.
  intros Hle. unfold kmp_stream.
  destruct (fallback fuel _ _ _ _) as [i1| |] eqn:Hfb; simpl; [|done..].
  by rewrite (fallback_fuel_mono _ _ _ _ _ Hle _ _ Hfb).
Qed.

Lemma kmp_stream_spec fuel h (P s : list ascii) state (c : ascii) (j : Z)
    (k : nat) :
  (1 ≤ length P)%nat → (length P ≤ fuel)%nat →
  stream_state h P state →
  state_i state = Z.of_nat k - 1 → longest_below P s (length P) k →
  ∃ k',
    kmp_stream fuel h state c j
    = Ret (State (state_P state) (state_m state) (Z.of_nat k' - 1)
             (state_failure state),
           if decide (P `suffix_of` s ++ [c]) then j else -1)
    ∧ longest_below P (s ++ [c]) (length P) k'.
Proof.
  intros Hm Hfuel (HP & Htable & Hsm) Hi Hk. unfold kmp_stream.
  rewrite HP, Hi, Hsm.
  destruct (transition_spec P (deref (ints h) (state_failure state)) s c
              (length P)) with (fuel := fuel) (k := k)
    as (i1 & k2 & -> & Hadv & Hk2);
    [lia | by eapply table_upto_mono; [|done]; lia | done
    | destruct Hk; lia |].
  cbn [bind]. rewrite Hadv. cbn [bind].
  destruct Hk2 as (Hk2lt & Hk2m & Hk2max).
  destruct (decide (Z.of_nat k2 - 1 = Z.of_nat (length P) - 1)) as [Heq|Hne].
  - assert (k2 = length P) as -> by lia.
    assert (P `suffix_of` s ++ [c]) as Hsuf.
    { destruct Hk2m as [_ H]. by rewrite take_ge in H by lia. }
    destruct (Htable (length P - 1)%nat) as (k3 & Hk3 & Hl3); [lia|].
    replace (S (length P - 1)) with (length P) in Hl3 by lia.
    rewrite (load_block _ _ _ (length P - 1)%nat (Z.of_nat k3 - 1))
      by (done || lia).
    cbn [bind]. rewrite decide_True by done.
    exists k3. split; [done|]. by apply longest_below_chain.
  - assert (k2 < length P)%nat as Hlt by lia.
    rewrite decide_False.
    + exists k2. split; [done|]. by apply longest_below_weaken.
    + intros Hsuf. assert (length P ≤ k2)%nat; [|lia].
      apply Hk2max; [lia|]. split; [done|]. by rewrite take_ge by lia.
Qed.

Lemma occurrences_match_ends (P T : list ascii) :
  (1 ≤ length P)%nat →
  ∀ s, occurrences P (s ++ T)
       = occurrences P s ++ ((λ j, S j - length P)%nat <$> match_ends P s T).
Proof.
  intros Hm. induction T as [|c T IH]; intros s.
  - simpl. by rewrite !app_nil_r.
  - rewrite (cons_middle c s T), (assoc_L (++)), IH.
    rewrite occurrences_snoc by done. simpl.
    rewrite fmap_app, (assoc_L (++)). do 2 f_equal.
    by case_decide.
Qed.

Lemma match_ends_ge (P T : list ascii) :
  ∀ s j, j ∈ match_ends P s T → (length P ≤ S j)%nat.
Proof.
  induction T as [|c T IH]; intros s j; simpl; [by intros ?%elem_of_nil|].
  rewrite elem_of_app. intros [Hj|Hj]; [|by eapply IH].
  case_decide as Hsuf; [|by apply elem_of_nil in Hj].
  apply list_elem_of_singleton in Hj as ->.
  apply suffix_length in Hsuf. rewrite length_app in Hsuf. simpl in Hsuf. lia.
Qed.

Lemma kmp_stream_all_spec fuel h (P T : list ascii) :
  (1 ≤ length P)%nat → (length P ≤ fuel)%nat →
  ∀ (s : list ascii) state (k : nat),
    stream_state h P state →
    state_i state = Z.of_nat k - 1 → longest_below P s (length P) k →
    ∃ state',
      kmp_stream_all fuel h state T (Z.of_nat (length s))
      = Ret (state', Z.of_nat <$> match_ends P s T)
      ∧ stream_state h P state'
      ∧ ∃ k', state_i state' = Z.of_nat k' - 1
              ∧ longest_below P (s ++ T) (length P) k'.
Proof.
  intros Hm Hfuel. induction T as [|c T IH]; intros s state k Hst Hi Hk.
  - exists state. rewrite app_nil_r. eauto.
  - destruct (kmp_stream_spec fuel h P s state c (Z.of_nat (length s)) k)
      as (k1 & Hrun & Hk1); [done..|].
    simpl. rewrite Hrun. cbn [bind fst snd].
    destruct (IH (s ++ [c])
                (State (state_P state) (state_m state) (Z.of_nat k1 - 1)
                   (state_failure state)) k1)
      as (state' & Hall & Hst' & k' & Hi' & Hk'); [done..|].
    rewrite length_app, Nat2Z.inj_add in Hall.
    change (Z.of_nat (length [c])) with 1 in Hall. rewrite Hall. cbn [bind fst snd].
    rewrite <- (assoc_L (++)) in Hk'.
    exists state'. split; [|eauto].
    do 2 f_equal. rewrite fmap_app.
    destruct (decide (P `suffix_of` s ++ [c])).
    + rewrite decide_False by lia. done.
    + rewrite decide_True by done. done.
Qed.

Lemma kmp_stream_frame fuel h state T_j j state' r :
  kmp_stream fuel h state T_j j = Ret (state', r) →
  state_P state' = state_P state ∧ state_m state' = state_m state
  ∧ state_failure state' = state_failure state.
Proof.
  unfold kmp_stream.
  destruct (fallback fuel _ _ _ _) as [i1| |]; simpl; [|done..].
  destruct (advance _ _ i1) as [i2| |]; simpl; [|done..].
  case_decide.
  - destruct (load BufFailure _ i2) as [i3| |]; simpl; [|done..].
    by intros [= <- _].
  - by intros [= <- _].
Qed.

Lemma reachable_invariant h (P : list ascii) state0 :
  (1 ≤ length P)%nat → stream_state h P state0 → state_i state0 = -1 →
  ∀ s state, reachable h state0 s state →
    stream_state h P state
    ∧ ∃ k, state_i state = Z.of_nat k - 1 ∧ longest_below P s (length P) k.
Proof.
  intros Hm Hst0 Hi0 s state Hreach.
  induction Hreach as [|fuel s state c j state' r Hreach [Hst (k & Hi & Hk)] Hrun].
  - split; [done|]. exists 0%nat. split; [done|]. by apply longest_below_nil.
  - apply (kmp_stream_fuel_mono fuel (fuel `max` length P)) in Hrun; [|lia].
    destruct (kmp_stream_spec (fuel `max` length P) h P s state c j k)
      as (k' & Hrun' & Hk'); [done | lia | done..|].
    rewrite Hrun' in Hrun. injection Hrun as <- _.
    split; [|by exists k'].
    destruct Hst as (? & ? & ?). by split_and!.
Qed.

Lemma kmp_stream_heap fuel h1 h2 state T_j j :
  deref (chars h1) (state_P state) = deref (chars h2) (state_P state) →
  deref (ints h1) (state_failure state) = deref (ints h2) (state_failure state) →
  kmp_stream fuel h1 state T_j j = kmp_stream fuel h2 state T_j j.
Proof. intros HP Hf. unfold kmp_stream. by rewrite HP, Hf. Qed.

Lemma kmp_stream_all_heap fuel h1 h2 T :
  ∀ state j,
    deref (chars h1) (state_P state) = deref (chars h2) (state_P state) →
    deref (ints h1) (state_failure state)
    = deref (ints h2) (state_failure state) →
    kmp_stream_all fuel h1 state T j = kmp_stream_all fuel h2 state T j.
Proof.
  induction T as [|c T IH]; intros state j HP Hf; [done|].
  simpl. rewrite (kmp_stream_heap fuel h1 h2) by done.
  destruct (kmp_stream fuel h2 state c j) as [[state' r]| |] eqn:Hrun;
    simpl; [|done..].
  apply kmp_stream_frame in Hrun as (HP' & _ & Hf').
  rewrite (IH state' (j + 1)); [done|by rewrite HP'|by rewrite Hf'].
Qed.

Lemma block_initialised {A : Type} (d : A) (a : block A) :
  (∀ x, (x < length a)%nat → ∃ v, a !! x = Some (Some v)) →
  a = of_list (default d <$> a).
Proof.
  intros Ha. apply list_eq. intros x. unfold of_list.
  rewrite !list_lookup_fmap.
  destruct (a !! x) as [c|] eqn:Hx; [|done].
  destruct (Ha x) as [v Hv]; [by eapply lookup_lt_Some|].
  by simplify_eq.
Qed.

(** A pattern longer than the text has no occurrence. *)
Lemma kmp_match_pattern_longer_than_text fuel (T P : list ascii) (n m : Z)
    (output : block Z) :
  0 ≤ n → 1 ≤ m → n < m →
  Z.of_nat (length T) = n → Z.of_nat (length P) = m →
  (Z.to_nat m ≤ fuel)%nat →
  kmp_match fuel true (of_list T) n (of_list P) m output = Ret (0, output).
Proof.
  intros Hn Hm Hnm <- <- Hfuel.
  rewrite kmp_match_spec by lia.
  unfold occurrences.
  by replace (S (length T) - length P)%nat with 0%nat by lia.
Qed.

(** * Main theorems *)

(** C1. For a text of length [n] and a pattern of length [m] with
    [1 <= m <= n], [kmp_match] returns the number of occurrences and leaves
    in the first cells of [output] exactly the offsets [o] at which
    [T[o .. o+m-1]] is the pattern, each once, overlapping ones included, in
    strictly increasing order.  In particular it yields [0,1,2,3] for "aaa" in
    "aaaaaa" and [0,2,4] for "abab" in "abababab". *)
Theorem kmp_match_records_occurrences :
  (∀ (fuel : nat) (T P : list ascii) (n m : Z) (output : block Z),
     1 ≤ m ≤ n →
     Z.of_nat (length T) = n → Z.of_nat (length P) = m →
     n - m + 1 ≤ Z.of_nat (length output) → (Z.to_nat m ≤ fuel)%nat →
     ∃ offs : list Z,
       kmp_match fuel true (of_list T) n (of_list P) m output
       = Ret (Z.of_nat (length offs),
              of_list offs ++ drop (length offs) output)
       ∧ (∀ o : Z, o ∈ offs
                   ↔ 0 ≤ o ∧ take (Z.to_nat m) (drop (Z.to_nat o) T) = P)
       ∧ StronglySorted Z.lt offs
       ∧ NoDup offs)
  ∧ (∀ fuel : nat, (3 ≤ fuel)%nat →
       kmp_match fuel true (of_list (chars_of "aaaaaa")) 6
         (of_list (chars_of "aaa")) 3 (malloc true 4)
       = Ret (4, of_list [0; 1; 2; 3]))
  ∧ (∀ fuel : nat, (4 ≤ fuel)%nat →
       kmp_match fuel true (of_list (chars_of "abababab")) 8
         (of_list (chars_of "abab")) 4 (malloc true 5)
       = Ret (3, of_list [0; 2; 4] ++ [None; None])).
Proof.
  split; [|split].
  - intros fuel T P n m output Hmn <- <- Hroom Hfuel.
    exists (offsets (occurrences P T)).
    rewrite kmp_match_spec by lia.
    unfold recorded, offsets. rewrite !length_fmap.
    split; [done|]. split; [|split].
    + intros o. rewrite Nat2Z.id. unfold offsets. rewrite list_elem_of_fmap.
      split.
      * intros (x & -> & Hx). apply elem_of_occurrences in Hx; [|lia].
        split; [lia|]. by rewrite Nat2Z.id.
      * intros [Ho Hocc]. exists (Z.to_nat o). split; [lia|].
        apply elem_of_occurrences; [lia | done].
    + apply occurrences_sorted.
    + apply occurrences_NoDup.
  - intros fuel Hfuel.
    etrans; [apply (kmp_match_spec (chars_of "aaa") (chars_of "aaaaaa"));
             simpl; lia|].
    by vm_compute.
  - intros fuel Hfuel.
    etrans; [apply (kmp_match_spec (chars_of "abab") (chars_of "abababab"));
             simpl; lia|].
    by vm_compute.
Qed.

Lemma kmp_match_records_occurrences_witness :
  ∃ offs : list Z,
    kmp_match 2 true (of_list (chars_of "abcab")) 5 (of_list (chars_of "ab")) 2
      (malloc true 4)
    = Ret (Z.of_nat (length offs),
           of_list offs ++ drop (length offs) (malloc true 4))
    ∧ (∀ o : Z, o ∈ offs
                ↔ 0 ≤ o ∧ take (Z.to_nat 2) (drop (Z.to_nat o) (chars_of "abcab"))
                          = chars_of "ab")
    ∧ StronglySorted Z.lt offs
    ∧ NoDup offs.
Proof.
  apply (proj1 kmp_match_records_occurrences 2%nat (chars_of "abcab")
           (chars_of "ab") 5 2 (malloc true 4));
    [lia | reflexivity | reflexivity | vm_compute; discriminate | vm_compute; lia].
Defined.

(** C2. For a pattern of length [m >= 1] and a text of length [n], the
    matcher built by [kmp_build] and fed the text symbol by symbol at the
    positions [0 .. n-1] signals a match at exactly the positions [j] for
    which [kmp_match] records the offset [j - m + 1], in the same order. *)
Theorem kmp_stream_agrees_with_kmp_match :
  ∀ (fuel : nat) (h : heap) (pP : loc) (T P : list ascii) (n m : Z)
    (output : block Z),
    1 ≤ m → Z.of_nat (length T) = n → Z.of_nat (length P) = m →
    deref (chars h) pP = of_list P →
    Z.max 0 (n - m + 1) ≤ Z.of_nat (length output) →
    (Z.to_nat m ≤ fuel)%nat →
    ∃ (h' : heap) (state state' : kmp_state) (js : list Z),
      kmp_build fuel all_ok h pP m = Ret (h', state)
      ∧ kmp_stream_all fuel h' state T 0 = Ret (state', js)
      ∧ kmp_match fuel true (of_list T) n (of_list P) m output
        = Ret (Z.of_nat (length js),
               of_list ((λ j, j - m + 1) <$> js) ++ drop (length js) output).
Proof.
  intros fuel h pP T P n m output Hm <- <- HP Hroom Hfuel.
  destruct (kmp_build_stream_state fuel h pP P)
    as (h' & state & Hbuild & Hst & Hi & _); [lia | done | lia |].
  destruct (kmp_stream_all_spec fuel h' P T) with (s := @nil ascii)
    (state := state) (k := 0%nat) as (state' & Hall & _);
    [lia | lia | done | done | apply longest_below_nil; lia |].
  exists h', state, state', (Z.of_nat <$> match_ends P [] T).
  split; [done|]. split; [done|].
  rewrite kmp_match_spec by lia.
  pose proof (occurrences_match_ends P T ltac:(lia) []) as Hocc.
  rewrite occurrences_nil in Hocc by lia. simpl in Hocc.
  unfold recorded, offsets. rewrite Hocc, !length_fmap.
  do 3 f_equal. rewrite <- !list_fmap_compose. f_equal.
  apply list_fmap_ext. intros i j Hj. simpl.
  apply list_elem_of_lookup_2, match_ends_ge in Hj. lia.
Qed.

Lemma kmp_stream_agrees_with_kmp_match_witness :
  ∃ (h' : heap) (state state' : kmp_state) (js : list Z),
    kmp_build 2 all_ok (Heap {[ 1%nat := of_list (chars_of "aa") ]} ∅) 1%nat 2
    = Ret (h', state)
    ∧ kmp_stream_all 2 h' state (chars_of "aaa") 0 = Ret (state', js)
    ∧ kmp_match 2 true (of_list (chars_of "aaa")) 3 (of_list (chars_of "aa")) 2
        (malloc true 2)
      = Ret (Z.of_nat (length js),
             of_list ((λ j, j - 2 + 1) <$> js)
             ++ drop (length js) (malloc true 2)).
Proof.
  apply (kmp_stream_agrees_with_kmp_match 2%nat
           (Heap {[ 1%nat := of_list (chars_of "aa") ]} ∅) 1%nat
           (chars_of "aaa") (chars_of "aa") 3 2 (malloc true 2));
    [lia | reflexivity | reflexivity | reflexivity
    | vm_compute; discriminate | vm_compute; lia].
Defined.

(** C3. For a pattern of length [m >= 1], [kmp_failure] fills the table so
    that [failure[0] = -1], [failure[i] < i] for every [i] below [m], and
    [failure[i] + 1] is the length of the longest proper prefix of
    [P[0..i]] that is also a suffix of [P[0..i]] ([failure[i] = -1] when
    the empty prefix is the only one). *)
Theorem kmp_failure_longest_borders :
  ∀ (fuel : nat) (P : list ascii) (m : Z) (failure : block Z),
    1 ≤ m → Z.of_nat (length P) = m → Z.of_nat (length failure) = m →
    (Z.to_nat m ≤ fuel)%nat →
    ∃ table : list Z,
      kmp_failure fuel (of_list P) m failure = Ret (of_list table)
      ∧ Z.of_nat (length table) = m
      ∧ table !! 0%nat = Some (-1)
      ∧ (∀ (i : nat) (v : Z),
           table !! i = Some v →
           -1 ≤ v < Z.of_nat i
           ∧ longest_border (take (S i) P) (Z.to_nat (v + 1)))
      ∧ table = failure_table P.
Proof.
  intros fuel P m failure Hm <- Hlen Hfuel.
  destruct (kmp_failure_spec P fuel failure)
    as (failure' & Hrun & Hlen' & Htable); [lia..|].
  rewrite (block_initialised 0 failure') in Hrun, Htable.
  2,3: intros x Hx; destruct (Htable x) as (k & Hk & _); [lia | eauto].
  assert (∀ (i : nat) (v : Z),
            (default 0 <$> failure') !! i = Some v →
            ∃ k, v = Z.of_nat k - 1
                 ∧ longest_below P (take (S i) P) (S i) k) as Hentry.
  { intros i v Hv. pose proof (lookup_lt_Some _ _ _ Hv) as Hi.
    rewrite length_fmap in Hi.
    destruct (Htable i) as (k & Hk & Hl); [lia|].
    exists k. split; [|done]. unfold of_list in Hk.
    rewrite list_lookup_fmap, Hv in Hk. by simplify_eq/=. }
  exists (default 0 <$> failure'). split; [done|].
  split; [rewrite length_fmap; lia|]. split.
  - destruct (lookup_lt_is_Some_2 (default 0 <$> failure') 0) as [v Hv];
      [rewrite length_fmap; lia|].
    destruct (Hentry 0%nat v Hv) as (k & -> & Hk & _). rewrite Hv.
    f_equal. lia.
  - assert (∀ (i : nat) (v : Z),
              (default 0 <$> failure') !! i = Some v →
              -1 ≤ v < Z.of_nat i
              ∧ longest_border (take (S i) P) (Z.to_nat (v + 1))) as Hborder.
    { intros i v Hv. pose proof (lookup_lt_Some _ _ _ Hv) as Hi.
      rewrite length_fmap in Hi.
      destruct (Hentry i v Hv) as (k & -> & Hk).
      split; [destruct Hk; lia|].
      replace (Z.to_nat (Z.of_nat k - 1 + 1)) with k by lia.
      apply longest_border_below; [lia | done]. }
    split; [done|].
    apply list_eq. intros i. unfold failure_table.
    rewrite (list_lookup_fmap _ (seq 0 (length P))).
    destruct (decide (i < length P)%nat) as [Hi|Hi].
    + rewrite lookup_seq_lt by done. simpl.
      destruct (lookup_lt_is_Some_2 (default 0 <$> failure') i) as [v Hv];
        [rewrite length_fmap; lia|].
      rewrite Hv. f_equal.
      destruct (Hborder i v Hv) as [Hrange Hlong].
      assert (take (S i) P ≠ []) as Hne.
      { intros Hnil%(f_equal length).
        rewrite length_take_le in Hnil by lia. done. }
      pose proof (longest_border_unique _ _ _ Hlong
                    (longest_border_length_spec _ Hne)).
      lia.
    + rewrite lookup_seq_ge by lia. simpl.
      apply lookup_ge_None. rewrite length_fmap. lia.
Qed.

Lemma kmp_failure_longest_borders_witness :
  ∃ table : list Z,
    kmp_failure 3 (of_list (chars_of "aba")) 3 (malloc true 3)
    = Ret (of_list table)
    ∧ Z.of_nat (length table) = 3
    ∧ table !! 0%nat = Some (-1)
    ∧ (∀ (i : nat) (v : Z),
         table !! i = Some v →
         -1 ≤ v < Z.of_nat i
         ∧ longest_border (take (S i) (chars_of "aba")) (Z.to_nat (v + 1)))
    ∧ table = failure_table (chars_of "aba").
Proof.
  apply (kmp_failure_longest_borders 3%nat (chars_of "aba") 3 (malloc true 3));
    [lia | reflexivity | reflexivity | vm_compute; lia].
Defined.

(** C4, on the code.  With an empty pattern ([m = 0]) the table has no cell,
    and [kmp_match] stops on the write [failure[0] = -1] of [kmp_failure],
    whatever the text: it does not return 0 matches. *)
Theorem kmp_match_empty_pattern :
  ∀ (fuel : nat) (heap_ok : bool) (T : block ascii) (n : Z) (P : block ascii)
    (output : block Z),
    kmp_match fuel heap_ok T n P 0 output = Fault BufFailure 0.
Proof.
  intros fuel heap_ok T n P output. unfold kmp_match.
  by rewrite malloc_null by (right; lia).
Qed.

(** C5, on the code.  For [m = 0], [kmp_failure] performs the write
    [failure[0] = -1]: on a table of no cell it is out of bounds, and on a
    larger buffer it changes the first cell. *)
Theorem kmp_failure_empty_pattern :
  (∀ (fuel : nat) (P : block ascii),
     kmp_failure fuel P 0 [] = Fault BufFailure 0)
  ∧ (∀ (fuel : nat) (P : block ascii) (cell : option Z) (failure : block Z),
       kmp_failure fuel P 0 (cell :: failure) = Ret (Some (-1) :: failure)).
Proof. split; done. Qed.

(** For [m >= 1] every access of [kmp_failure] is within bounds: on a pattern
    and a table of [m] cells it runs to its end. *)
Lemma kmp_failure_in_bounds (fuel : nat) (P : list ascii) (m : Z)
    (failure : block Z) :
  1 ≤ m → Z.of_nat (length P) = m → Z.of_nat (length failure) = m →
  (Z.to_nat m ≤ fuel)%nat →
  ∃ failure', kmp_failure fuel (of_list P) m failure = Ret failure'
              ∧ length failure' = length failure.
Proof.
  intros Hm <- Hlen Hfuel.
  destruct (kmp_failure_spec P fuel failure)
    as (failure' & Hrun & Hlen' & _); [lia..|].
  exists failure'. split; [done | lia].
Qed.

(** C6. Given a table with [failure[i] < i] for all [i], the loop
    [while (i > -1 && P[i + 1] != c) i = failure[i]] ends within [i + 2]
    evaluations of its condition, never with a greater [i]; hence
    [kmp_failure] and [kmp_match], which build such a table, and
    [kmp_stream] on such a table, end on every input. *)
Theorem fallback_loops_terminate :
  (∀ (fuel : nat) (P : block ascii) (failure : block Z) (rhs : outcome ascii)
     (i : Z),
     decreasing failure → rhs ≠ OutOfFuel →
     (Z.to_nat (i + 1) < fuel)%nat →
     fallback fuel P failure rhs i ≠ OutOfFuel
     ∧ ∀ i1, fallback fuel P failure rhs i = Ret i1 → i1 ≤ i)
  ∧ (∀ (fuel : nat) (P : block ascii) (m : Z) (failure : block Z),
       (Z.to_nat m ≤ fuel)%nat → kmp_failure fuel P m failure ≠ OutOfFuel)
  ∧ (∀ (fuel : nat) (heap_ok : bool) (T : block ascii) (n : Z)
       (P : block ascii) (m : Z) (output : block Z),
       (Z.to_nat m ≤ fuel)%nat →
       kmp_match fuel heap_ok T n P m output ≠ OutOfFuel)
  ∧ (∀ (fuel : nat) (h : heap) (state : kmp_state) (T_j : ascii) (j : Z),
       decreasing (deref (ints h) (state_failure state)) →
       (Z.to_nat (state_i state + 1) < fuel)%nat →
       kmp_stream fuel h state T_j j ≠ OutOfFuel).
Proof.
  assert (∀ failure t, decreasing failure → decreasing_upto failure t) as Hupto.
  { intros failure t Hdec x v _. apply Hdec. }
  split; [|split; [|split]].
  - intros fuel P failure rhs i Hdec Hrhs Hfuel. split.
    + apply (fallback_terminates _ _ _ _ (Z.to_nat (i + 1))); [auto|done|lia|done].
    + intros i1. apply (fallback_le _ _ _ _ (Z.to_nat (i + 1))); [auto|lia].
  - intros fuel P m failure Hfuel.
    pose proof (kmp_failure_safe fuel P m failure) as Hsafe.
    intros Hrun. rewrite Hrun in Hsafe. simpl in Hsafe. lia.
  - intros fuel heap_ok T n P m output Hfuel. unfold kmp_match.
    pose proof (kmp_failure_safe fuel P m (malloc heap_ok m)) as Hsafe.
    destruct (kmp_failure fuel P m (malloc heap_ok m)) as [failure| |] eqn:Hrun;
      simpl in *; [|done|lia].
    destruct (decide (1 ≤ m)) as [Hm|Hm].
    + apply kmp_match_loop_terminates; [done | done | done | lia].
    + rewrite malloc_null in Hrun by (right; lia). done.
  - intros fuel h state c j Hdec Hfuel. unfold kmp_stream.
    pose proof (fallback_terminates fuel (deref (chars h) (state_P state))
                  (deref (ints h) (state_failure state)) (Ret c)
                  (Z.to_nat (state_i state + 1)) (Hupto _ _ Hdec)
                  ltac:(done) (state_i state) ltac:(lia) Hfuel) as Hterm.
    destruct (fallback fuel _ _ _ _) as [i1| |]; simpl; [|done..].
    destruct (advance _ _ i1) as [i2| |] eqn:Hadv; simpl; [|done|].
    + case_decide; [|done].
      pose proof (load_not_OutOfFuel BufFailure
                    (deref (ints h) (state_failure state)) i2).
      by destruct (load BufFailure _ i2).
    + by apply advance_not_OutOfFuel in Hadv.
Qed.

Lemma fallback_loops_terminate_witness :
  fallback 3 (of_list (chars_of "aab")) (of_list [-1; 0; -1])
    (Ret "b"%char) 1 ≠ OutOfFuel
  ∧ ∀ i1, fallback 3 (of_list (chars_of "aab")) (of_list [-1; 0; -1])
            (Ret "b"%char) 1 = Ret i1 → i1 ≤ 1.
Proof.
  apply (proj1 fallback_loops_terminate 3%nat (of_list (chars_of "aab"))
           (of_list [-1; 0; -1]) (Ret "b"%char) 1).
  - intros [|[|[|x]]] v; simpl; intros [= <-]; lia.
  - discriminate.
  - vm_compute; lia.
Defined.

(** C7. After [kmp_build] on a pattern of length [m >= 1] the progress index
    is [-1]; in every state reached by feeding symbols it lies in
    [-1 .. m-1] and is, plus one, the length of the longest prefix of the
    pattern that ends at the last symbol fed, the whole pattern apart, a
    completed match having been collapsed through the failure link; and every
    further feed returns. *)
Theorem kmp_stream_progress_index :
  ∀ (fuel : nat) (h : heap) (pP : loc) (P : list ascii) (m : Z),
    1 ≤ m → Z.of_nat (length P) = m → deref (chars h) pP = of_list P →
    (Z.to_nat m ≤ fuel)%nat →
    ∃ (h' : heap) (state0 : kmp_state),
      kmp_build fuel all_ok h pP m = Ret (h', state0)
      ∧ state_i state0 = -1
      ∧ ∀ (s : list ascii) (state : kmp_state),
          reachable h' state0 s state →
          -1 ≤ state_i state ≤ m - 1
          ∧ longest_below P s (length P) (Z.to_nat (state_i state + 1))
          ∧ (¬ P `suffix_of` s →
             ∀ k, matched P s k → Z.of_nat k ≤ state_i state + 1)
          ∧ ∀ (T_j : ascii) (j : Z) (fuel' : nat),
              (Z.to_nat m ≤ fuel')%nat →
              ∃ state' r, kmp_stream fuel' h' state T_j j = Ret (state', r).
Proof.
  intros fuel h pP P m Hm <- HP Hfuel.
  destruct (kmp_build_stream_state fuel h pP P)
    as (h' & state0 & Hbuild & Hst & Hi & _); [lia | done | lia |].
  exists h', state0. split; [done|]. split; [done|].
  intros s state Hreach.
  destruct (reachable_invariant h' P state0 ltac:(lia) Hst Hi s state Hreach)
    as (Hst' & k & Hi' & Hk).
  rewrite Hi'. replace (Z.to_nat (Z.of_nat k - 1 + 1)) with k by lia.
  split; [destruct Hk; lia|]. split; [done|]. split.
  - intros Hsuf k' Hk'. destruct Hk as (_ & _ & Hmax).
    destruct (decide (k' < length P)%nat) as [Hlt|Hge].
    + specialize (Hmax k' Hlt Hk'). lia.
    + destruct Hk' as [Hle Hs]. rewrite take_ge in Hs by lia. done.
  - intros c j fuel' Hfuel'.
    destruct (kmp_stream_spec fuel' h' P s state c j k)
      as (k' & Hrun & _); [lia | lia | done..|].
    eauto.
Qed.

Lemma kmp_stream_progress_index_witness :
  ∃ (h' : heap) (state0 : kmp_state),
    kmp_build 2 all_ok (Heap {[ 1%nat := of_list (chars_of "ab") ]} ∅) 1%nat 2
    = Ret (h', state0)
    ∧ state_i state0 = -1
    ∧ ∀ (s : list ascii) (state : kmp_state),
        reachable h' state0 s state →
        -1 ≤ state_i state ≤ 2 - 1
        ∧ longest_below (chars_of "ab") s (length (chars_of "ab"))
            (Z.to_nat (state_i state + 1))
        ∧ (¬ chars_of "ab" `suffix_of` s →
           ∀ k, matched (chars_of "ab") s k → Z.of_nat k ≤ state_i state + 1)
        ∧ ∀ (T_j : ascii) (j : Z) (fuel' : nat),
            (Z.to_nat 2 ≤ fuel')%nat →
            ∃ state' r, kmp_stream fuel' h' state T_j j = Ret (state', r).
Proof.
  apply (kmp_stream_progress_index 2%nat
           (Heap {[ 1%nat := of_list (chars_of "ab") ]} ∅) 1%nat
           (chars_of "ab") 2);
    [lia | reflexivity | reflexivity | vm_compute; lia].
Defined.

(** C8. For a text of length [n >= 0] and a pattern of length [m >= 0],
    [kmp_match] never writes outside an [output] of [max(0, n - m + 1)]
    cells, and the count it returns is at most that number. *)
Theorem kmp_match_output_bound :
  ∀ (fuel : nat) (heap_ok : bool) (T P : list ascii) (n m : Z)
    (output : block Z),
    0 ≤ n → 0 ≤ m →
    Z.of_nat (length T) = n → Z.of_nat (length P) = m →
    Z.of_nat (length output) = Z.max 0 (n - m + 1) →
    match kmp_match fuel heap_ok (of_list T) n (of_list P) m output with
    | Ret (k, output') =>
        0 ≤ k ≤ Z.max 0 (n - m + 1) ∧ length output' = length output
    | Fault b _ => b ≠ BufOutput
    | OutOfFuel => (fuel < Z.to_nat m)%nat
    end
    ∧ (heap_ok = true → 1 ≤ m → (Z.to_nat m ≤ fuel)%nat →
       ∃ k output',
         kmp_match fuel heap_ok (of_list T) n (of_list P) m output
         = Ret (k, output')).
Proof.
  intros fuel heap_ok T P n m output Hn Hm HT HP Hlen. split.
  - apply (kmp_match_safe fuel heap_ok (of_list T) n (of_list P) m output);
      lia.
  - intros -> Hm1 Hfuel. subst n m. rewrite kmp_match_spec by lia. eauto.
Qed.

Lemma kmp_match_output_bound_witness :
  match kmp_match 2 true (of_list (chars_of "aaa")) 3 (of_list (chars_of "aa"))
          2 (malloc true 2) with
  | Ret (k, output') =>
      0 ≤ k ≤ Z.max 0 (3 - 2 + 1)
      ∧ length output' = length (@malloc Z true 2)
  | Fault b _ => b ≠ BufOutput
  | OutOfFuel => (2 < Z.to_nat 2)%nat
  end
  ∧ (true = true → 1 ≤ 2 → (Z.to_nat 2 ≤ 2)%nat →
     ∃ k output',
       kmp_match 2 true (of_list (chars_of "aaa")) 3 (of_list (chars_of "aa")) 2
         (malloc true 2)
       = Ret (k, output')).
Proof.
  apply (kmp_match_output_bound 2%nat true (chars_of "aaa") (chars_of "aa") 3 2
           (malloc true 2)); [lia | lia | reflexivity | reflexivity | reflexivity].
Defined.

(** C9, as the specification states it, fails: when the allocation of the
    failure table fails, [kmp_match] does not hand an error back to its
    caller; it writes through the null pointer. *)
Lemma kmp_match_allocation_failure_unreported :
  kmp_match 1 false (of_list (chars_of "a")) 1 (of_list (chars_of "a")) 1
    (malloc true 1)
  = Fault BufFailure 0
  ∧ ¬ ∃ r, kmp_match 1 false (of_list (chars_of "a")) 1
             (of_list (chars_of "a")) 1 (malloc true 1) = Ret r.
Proof. split; [done|]. by intros [r Hr]. Qed.

(** C9, amended.  [kmp_match] has no error result and does not check its
    allocation: when it fails, the first write to the table goes through the
    null pointer.  When it succeeds, on a text of length [n >= 0], a pattern
    of length [m >= 1] and an [output] of at least [max(0, n - m + 1)]
    cells, no fault arises and the number of occurrences is returned, their
    offsets being recorded in [output]. *)
Theorem kmp_match_unchecked_allocation :
  (∀ (fuel : nat) (T : block ascii) (n : Z) (P : block ascii) (m : Z)
     (output : block Z),
     kmp_match fuel false T n P m output = Fault BufFailure 0)
  ∧ (∀ (fuel : nat) (T P : list ascii) (n m : Z) (output : block Z),
       0 ≤ n → 1 ≤ m →
       Z.of_nat (length T) = n → Z.of_nat (length P) = m →
       Z.max 0 (n - m + 1) ≤ Z.of_nat (length output) →
       (Z.to_nat m ≤ fuel)%nat →
       kmp_match fuel true (of_list T) n (of_list P) m output
       = Ret (Z.of_nat (length (occurrences P T)),
              recorded (occurrences P T) output)).
Proof.
  split.
  - done.
  - intros fuel T P n m output Hn Hm <- <- Hroom Hfuel.
    apply kmp_match_spec; lia.
Qed.

Lemma kmp_match_unchecked_allocation_witness :
  kmp_match 2 true (of_list (chars_of "abcab")) 5 (of_list (chars_of "ab")) 2
    (malloc true 4)
  = Ret (Z.of_nat (length (occurrences (chars_of "ab") (chars_of "abcab"))),
         recorded (occurrences (chars_of "ab") (chars_of "abcab"))
           (malloc true 4)).
Proof.
  apply (proj2 kmp_match_unchecked_allocation 2%nat (chars_of "abcab")
           (chars_of "ab") 5 2 (malloc true 4));
    [lia | lia | reflexivity | reflexivity | vm_compute; discriminate
    | vm_compute; lia].
Defined.

(** On "abcab" the count is 2 and the two offsets are recorded. *)
Example kmp_match_ab_in_abcab :
  kmp_match 2 true (of_list (chars_of "abcab")) 5 (of_list (chars_of "ab")) 2
    (malloc true 4)
  = Ret (2, of_list [0; 3] ++ [None; None]).
Proof. reflexivity. Qed.



(** * Further properties *)

Lemma kmp_match_pattern_longer_than_text_witness :
  kmp_match 3 true (of_list (chars_of "ab")) 2 (of_list (chars_of "abc")) 3 []
  = Ret (0, []).
Proof.
  apply (kmp_match_pattern_longer_than_text 3%nat (chars_of "ab")
           (chars_of "abc") 2 3 []);
    [lia | lia | lia | reflexivity | reflexivity | vm_compute; lia].
Defined.

(** ** [kmp_build] *)

Lemma table_upto_failure_table (P : list ascii) (failure : block Z) :
  length failure = length P → table_upto P failure (length P) →
  failure = of_list (failure_table P).
Proof.
  intros Hlen Htable. apply list_eq. intros i.
  unfold of_list, failure_table.
  rewrite list_lookup_fmap, (list_lookup_fmap _ (seq 0 (length P))).
  destruct (decide (i < length P)%nat) as [Hi|Hi].
  - rewrite lookup_seq_lt by done. simpl.
    destruct (Htable i Hi) as (k & -> & Hk). do 4 f_equal.
    assert (take (S i) P ≠ []) as Hne.
    { intros Hnil%(f_equal length).
      rewrite length_take_le in Hnil by lia. done. }
    apply (longest_border_unique (take (S i) P)).
    + apply longest_border_below; [lia | done].
    + by apply longest_border_length_spec.
  - rewrite lookup_seq_ge by lia. simpl.
    apply lookup_ge_None. lia.
Qed.

(** Among the blocks, [kmp_build] leaves every one as it was and adds two: a
    copy of the pattern behind [state->P] and its table of borders behind
    [state->failure]; the fields hold [m] and the index [-1]. *)
Lemma kmp_build_frame :
  ∀ (fuel : nat) (h : heap) (pP : loc) (P : list ascii) (m : Z),
    1 ≤ m → Z.of_nat (length P) = m → deref (chars h) pP = of_list P →
    (Z.to_nat m ≤ fuel)%nat →
    ∃ (h' : heap) (state : kmp_state),
      kmp_build fuel all_ok h pP m = Ret (h', state)
      ∧ state_m state = m ∧ state_i state = -1
      ∧ chars h !! state_P state = None
      ∧ ints h !! state_failure state = None
      ∧ chars h' = <[state_P state := of_list P]> (chars h)
      ∧ ints h' = <[state_failure state := of_list (failure_table P)]> (ints h)
      ∧ state_P state ≠ null ∧ state_failure state ≠ null.
Proof.
  intros fuel h pP P m Hm <- HP Hfuel.
  destruct (kmp_build_spec fuel h pP P)
    as (sP & sF & failure & -> & HsP & HsPdom & _ & HsF & HsFdom & Hlen & Htable);
    [lia | done | lia |].
  eexists _, _. split; [done|]. simpl.
  rewrite (table_upto_failure_table P failure Hlen Htable).
  split_and!; try done; by apply not_elem_of_dom.
Qed.

Lemma deref_null {A : Type} (store : gmap loc (block A)) :
  deref store null = [].
Proof. done. Qed.

(** [kmp_build] does not test what [malloc] returns.  On a pattern of length
    [m >= 1], whichever allocation fails first, the next write through the
    pointer it returned is a write through the null pointer: [state->P = ...]
    for the record, [state->P[0] = P[0]] for the copy, [failure[0] = -1] for
    the table. *)
Theorem kmp_build_unchecked_allocations :
  ∀ (fuel : nat) (h : heap) (pP : loc) (P : list ascii) (m : Z)
    (ok : mallocs),
    1 ≤ m → Z.of_nat (length P) = m → deref (chars h) pP = of_list P →
    ok ≠ all_ok →
    kmp_build fuel ok h pP m
    = Fault (if ok_state ok then if ok_P ok then BufFailure else BufStateP
             else BufState) 0.
Proof.
  intros fuel h pP P m [oks okP okF] Hm <- HP Hok. unfold kmp_build.
  cbn [ok_state ok_P ok_failure].
  destruct oks; [|done]. destruct okP.
  - destruct okF; [done|].
    destruct (alloc_fresh (Z.of_nat (length P)) (chars h))
      as (sP & -> & HsP & HsPdom).
    destruct (deref_cells (chars h) pP) as [HpP HpPdom].
    { rewrite HP. destruct P; [simpl in Hm; lia | done]. }
    assert (sP ≠ pP) as Hne by (intros ->; done).
    rewrite deref_insert_ne, HP, deref_insert_eq by done.
    rewrite Nat2Z.id.
    pose proof (kmp_build_copy_spec P (malloc true (Z.of_nat (length P)))
                  (length P) 0 eq_refl (malloc_length _)) as Hcopy.
    change (kmp_build_copy (of_list P) (length P) 0
              (malloc true (Z.of_nat (length P))) = Ret (of_list P)) in Hcopy.
    rewrite Hcopy. cbn [bind]. unfold alloc. by rewrite deref_null.
  - unfold alloc at 1. rewrite deref_null.
    destruct (Z.to_nat (Z.of_nat (length P))) as [|rounds] eqn:Hrounds; [lia|].
    destruct P as [|c P]; [simpl in Hm; lia|].
    simpl. rewrite HP. done.
Qed.

Lemma kmp_build_unchecked_allocations_witness :
  kmp_build 2 (Mallocs true false true)
    (Heap {[ 1%nat := of_list (chars_of "ab") ]} ∅) 1%nat 2
  = Fault BufStateP 0.
Proof.
  apply (kmp_build_unchecked_allocations 2%nat
           (Heap {[ 1%nat := of_list (chars_of "ab") ]} ∅) 1%nat
           (chars_of "ab") 2 (Mallocs true false true));
    [lia | reflexivity | reflexivity | discriminate].
Defined.

(** With [m = 0], [kmp_build] stops on the write [failure[0] = -1] of
    [kmp_failure], whatever the heap and the pattern pointer, once the record
    of the state is allocated. *)
Theorem kmp_build_empty_pattern :
  ∀ (fuel : nat) (ok : mallocs) (h : heap) (pP : loc),
    ok_state ok = true →
    kmp_build fuel ok h pP 0 = Fault BufFailure 0.
Proof.
  intros fuel [oks okP okF] h pP Hok. simpl in Hok. subst oks.
  unfold kmp_build. cbn [ok_state ok_P ok_failure].
  destruct (alloc okP 0 (chars h)) as [chars1 sP].
  cbn [Z.to_nat kmp_build_copy bind].
  destruct okF.
  - destruct (alloc_fresh 0 (ints h)) as (sF & -> & HsF & _).
    by rewrite deref_insert_eq.
  - unfold alloc. by rewrite deref_null.
Qed.

Lemma kmp_build_empty_pattern_witness :
  kmp_build 0 all_ok (Heap ∅ ∅) null 0 = Fault BufFailure 0.
Proof. apply (kmp_build_empty_pattern 0%nat all_ok (Heap ∅ ∅) null). reflexivity. Defined.

(** Building a second matcher gives it blocks other than those of the first,
    and the first runs on the new heap as it did before. *)
Theorem kmp_build_independent :
  ∀ (fuel : nat) (h : heap) (p1 p2 : loc) (P1 P2 : list ascii) (m1 m2 : Z)
    (h1 : heap) (state1 : kmp_state),
    1 ≤ m1 → Z.of_nat (length P1) = m1 → deref (chars h) p1 = of_list P1 →
    1 ≤ m2 → Z.of_nat (length P2) = m2 → deref (chars h1) p2 = of_list P2 →
    (Z.to_nat m1 ≤ fuel)%nat → (Z.to_nat m2 ≤ fuel)%nat →
    kmp_build fuel all_ok h p1 m1 = Ret (h1, state1) →
    ∃ (h2 : heap) (state2 : kmp_state),
      kmp_build fuel all_ok h1 p2 m2 = Ret (h2, state2)
      ∧ state_P state2 ≠ state_P state1
      ∧ state_failure state2 ≠ state_failure state1
      ∧ ∀ (fuel' : nat) (T : list ascii) (j : Z),
          kmp_stream_all fuel' h2 state1 T j
          = kmp_stream_all fuel' h1 state1 T j.
Proof.
  intros fuel h p1 p2 P1 P2 m1 m2 h1 state1 Hm1 <- HP1 Hm2 <- HP2 Hf1 Hf2 Hb1.
  destruct (kmp_build_spec fuel h p1 P1)
    as (sP1 & sF1 & f1 & Hrun1 & HsP1 & _ & _ & HsF1 & _);
    [lia | done | lia |].
  rewrite Hrun1 in Hb1. injection Hb1 as <- <-.
  destruct (kmp_build_spec fuel
              (Heap (<[sP1:=of_list P1]> (chars h)) (<[sF1:=f1]> (ints h)))
              p2 P2)
    as (sP2 & sF2 & f2 & -> & HsP2 & HsP2dom & _ & HsF2 & HsF2dom & _);
    [lia | done | lia |].
  simpl in *.
  assert (sP2 ≠ sP1) by (intros ->; apply HsP2dom; set_solver).
  assert (sF2 ≠ sF1) by (intros ->; apply HsF2dom; set_solver).
  eexists _, _. split; [done|]. simpl. split; [done|]. split; [done|].
  intros fuel' T j. apply kmp_stream_all_heap; simpl.
  - by rewrite deref_insert_ne.
  - by rewrite deref_insert_ne.
Qed.

Lemma kmp_build_independent_witness :
  ∃ (h2 : heap) (state2 : kmp_state),
    kmp_build 2 all_ok
      (Heap (<[2%nat := of_list (chars_of "ab")]>
               {[ 1%nat := of_list (chars_of "ab") ]})
         (<[1%nat := of_list [-1; -1]]> ∅))
      1%nat 2
    = Ret (h2, state2)
    ∧ state_P state2 ≠ state_P (State 2%nat 2 (-1) 1%nat)
    ∧ state_failure state2 ≠ state_failure (State 2%nat 2 (-1) 1%nat)
    ∧ ∀ (fuel' : nat) (T : list ascii) (j : Z),
        kmp_stream_all fuel' h2 (State 2%nat 2 (-1) 1%nat) T j
        = kmp_stream_all fuel'
            (Heap (<[2%nat := of_list (chars_of "ab")]>
                     {[ 1%nat := of_list (chars_of "ab") ]})
               (<[1%nat := of_list [-1; -1]]> ∅))
            (State 2%nat 2 (-1) 1%nat) T j.
Proof.
  apply (kmp_build_independent 2%nat
           (Heap {[ 1%nat := of_list (chars_of "ab") ]} ∅) 1%nat 1%nat
           (chars_of "ab") (chars_of "ab") 2 2);
    [lia | reflexivity | reflexivity | lia | reflexivity | reflexivity
    | vm_compute; lia | vm_compute; lia | reflexivity].
Defined.

(** ** The record of the state: [kmp_build], [kmp_stream] and [kmp_free]
       through the handle *)

Lemma free_fresh {A : Type} b (store : gmap loc (block A)) p (blk : block A) :
  p ≠ null → store !! p = None →
  free b (<[p := blk]> store) p = Ret store.
Proof.
  intros Hp Hnone. unfold free. rewrite decide_False by done.
  by rewrite lookup_insert_eq, delete_insert_id.
Qed.

Lemma reachable_pointers h state0 s state :
  reachable h state0 s state →
  state_P state = state_P state0 ∧ state_failure state = state_failure state0.
Proof.
  induction 1 as [|fuel s state c j state' r _ [HP Hf] Hrun]; [done|].
  apply kmp_stream_frame in Hrun as (-> & _ & ->). done.
Qed.

Lemma record_insert (mem : memory) (h : heap) (state : loc) (r : kmp_state) :
  state ≠ null →
  record (Memory h (<[state := r]> (records mem))) state = Ret r.
Proof.
  intros Hnull. unfold record. rewrite decide_False by done.
  simpl. by rewrite lookup_insert_eq.
Qed.

(** [kmp_build] makes three allocations and touches nothing else: it returns
    the address of a new record, whose fields are [m], the index [-1] and the
    addresses of two new blocks, a copy of the pattern and its table of
    borders; every record and every block there was is as before. *)
Theorem kmp_build_allocates :
  ∀ (fuel : nat) (mem : memory) (pP : loc) (P : list ascii) (m : Z),
    1 ≤ m → Z.of_nat (length P) = m →
    deref (chars (blocks mem)) pP = of_list P →
    (Z.to_nat m ≤ fuel)%nat →
    ∃ (mem' : memory) (state : loc) (r : kmp_state),
      Handle.kmp_build fuel all_ok mem pP m = Ret (mem', state)
      ∧ state ≠ null ∧ records mem !! state = None
      ∧ records mem' = <[state := r]> (records mem)
      ∧ state_m r = m ∧ state_i r = -1
      ∧ state_P r ≠ null ∧ chars (blocks mem) !! state_P r = None
      ∧ chars (blocks mem') = <[state_P r := of_list P]> (chars (blocks mem))
      ∧ state_failure r ≠ null ∧ ints (blocks mem) !! state_failure r = None
      ∧ ints (blocks mem')
        = <[state_failure r := of_list (failure_table P)]> (ints (blocks mem)).
Proof.
  intros fuel mem pP P m Hm HP Hlen Hfuel.
  destruct (kmp_build_frame fuel (blocks mem) pP P m Hm HP Hlen Hfuel)
    as (h' & r & Hbuild & Hrm & Hri & HsP & HsF & Hchars & Hints & HnP & HnF).
  unfold Handle.kmp_build. rewrite Hbuild. cbn [bind fst snd].
  pose proof (is_fresh ({[null]} ∪ dom (records mem))) as Hfresh.
  eexists _, _, r. split; [done|]. simpl.
  split_and!; try done; [set_solver|].
  apply not_elem_of_dom. set_solver.
Qed.

Lemma kmp_build_allocates_witness :
  ∃ (mem' : memory) (state : loc) (r : kmp_state),
    Handle.kmp_build 2 all_ok
      (Memory (Heap {[ 1%nat := of_list (chars_of "ab") ]} ∅) ∅) 1%nat 2
    = Ret (mem', state)
    ∧ state ≠ null
    ∧ records (Memory (Heap {[ 1%nat := of_list (chars_of "ab") ]} ∅) ∅)
      !! state = None
    ∧ records mem'
      = <[state := r]>
          (records (Memory (Heap {[ 1%nat := of_list (chars_of "ab") ]} ∅) ∅))
    ∧ state_m r = 2 ∧ state_i r = -1
    ∧ state_P r ≠ null
    ∧ chars (blocks (Memory (Heap {[ 1%nat := of_list (chars_of "ab") ]} ∅) ∅))
      !! state_P r = None
    ∧ chars (blocks mem')
      = <[state_P r := of_list (chars_of "ab")]>
          (chars
             (blocks (Memory (Heap {[ 1%nat := of_list (chars_of "ab") ]} ∅) ∅)))
    ∧ state_failure r ≠ null
    ∧ ints (blocks (Memory (Heap {[ 1%nat := of_list (chars_of "ab") ]} ∅) ∅))
      !! state_failure r = None
    ∧ ints (blocks mem')
      = <[state_failure r := of_list (failure_table (chars_of "ab"))]>
          (ints
             (blocks (Memory (Heap {[ 1%nat := of_list (chars_of "ab") ]} ∅) ∅))).
Proof.
  apply (kmp_build_allocates 2%nat
           (Memory (Heap {[ 1%nat := of_list (chars_of "ab") ]} ∅) ∅) 1%nat
           (chars_of "ab") 2);
    [lia | reflexivity | reflexivity | vm_compute; lia].
Defined.

(** Feeds through the handle change the record behind it, and in it the index
    alone: they are the feeds of [reachable] on the record. *)
Lemma fed_reachable (state : loc) (mem mem' : memory) (r : kmp_state) :
  state ≠ null → records mem !! state = Some r →
  fed state mem mem' →
  blocks mem' = blocks mem
  ∧ ∃ (s : list ascii) (r' : kmp_state),
      reachable (blocks mem) r s r'
      ∧ records mem' = <[state := r']> (records mem).
Proof.
  intros Hnull Hr Hfed.
  induction Hfed as [|fuel mem1 mem2 c j res _ (Hblocks & s & r1 & Hreach & Hrec)
                       Hrun].
  - split; [done|]. exists [], r. split; [constructor|].
    by rewrite insert_id.
  - unfold Handle.kmp_stream in Hrun.
    destruct mem1 as [h1 recs1]. simpl in *. subst h1 recs1.
    rewrite record_insert in Hrun by done. cbn [bind] in Hrun.
    destruct (kmp_stream fuel (blocks mem) r1 c j) as [[r2 res']| |] eqn:Hstep;
      simpl in Hrun; [|done..].
    injection Hrun as <- _. simpl. split; [done|].
    exists (s ++ [c]), r2. split; [by econstructor|].
    by rewrite insert_insert_eq.
Qed.

(** [kmp_free] undoes [kmp_build]: after a matcher was built and fed any
    number of symbols, each of which feeds returns, [kmp_free] gives back the
    record and the two blocks and the memory is the one from before
    [kmp_build]. *)
Theorem kmp_free_restores_memory :
  ∀ (fuel : nat) (mem : memory) (pP : loc) (P : list ascii) (m : Z),
    1 ≤ m → Z.of_nat (length P) = m →
    deref (chars (blocks mem)) pP = of_list P →
    (Z.to_nat m ≤ fuel)%nat →
    ∃ (mem1 : memory) (state : loc),
      Handle.kmp_build fuel all_ok mem pP m = Ret (mem1, state)
      ∧ ∀ mem2 : memory,
          fed state mem1 mem2 →
          Handle.kmp_free mem2 state = Ret mem
          ∧ ∀ (T_j : ascii) (j : Z) (fuel' : nat),
              (Z.to_nat m ≤ fuel')%nat →
              ∃ mem3 res, Handle.kmp_stream fuel' mem2 state T_j j
                          = Ret (mem3, res).
Proof.
  intros fuel mem pP P m Hm <- HP Hfuel.
  destruct (kmp_build_spec fuel (blocks mem) pP P)
    as (sP & sF & failure & Hbuild & HsP & HsPdom & _ & HsF & HsFdom & _
        & Htable);
    [lia | done | lia |].
  pose proof (is_fresh ({[null]} ∪ dom (records mem))) as Hfresh.
  set (state := fresh ({[null]} ∪ dom (records mem))) in *.
  assert (state ≠ null) as Hnull by set_solver.
  assert (records mem !! state = None) as Hnone
    by (apply not_elem_of_dom; set_solver).
  unfold Handle.kmp_build. rewrite Hbuild. cbn [bind fst snd]. fold state.
  eexists _, state. split; [done|]. intros mem2 Hfed.
  apply (fed_reachable state _ _ (State sP (Z.of_nat (length P)) (-1) sF))
    in Hfed as (Hblocks & s & r' & Hreach & Hrec);
    [|done|by simpl; rewrite lookup_insert_eq].
  simpl in *. rewrite insert_insert_eq in Hrec.
  destruct mem2 as [h2 recs2]. simpl in *. subst h2 recs2.
  pose proof (reachable_pointers _ _ _ _ Hreach) as [HP' Hf']. simpl in *.
  split.
  - unfold Handle.kmp_free. rewrite record_insert by done. cbn [bind].
    simpl. rewrite HP', Hf'.
    rewrite !free_fresh by (done || by apply not_elem_of_dom).
    cbn [bind]. rewrite delete_insert_id by done. by destruct mem as [[] ?].
  - intros c j fuel' Hfuel'.
    unfold Handle.kmp_stream. rewrite record_insert by done.
    cbn [bind blocks records].
    destruct (reachable_invariant
                (Heap (<[sP:=of_list P]> (chars (blocks mem)))
                   (<[sF:=failure]> (ints (blocks mem))))
                P (State sP (Z.of_nat (length P)) (-1) sF))
      with (s := s) (state := r') as (Hst & k & Hi & Hk);
      [lia | | done | done |].
    { unfold stream_state. simpl. by rewrite !deref_insert_eq. }
    destruct (kmp_stream_spec fuel'
                (Heap (<[sP:=of_list P]> (chars (blocks mem)))
                   (<[sF:=failure]> (ints (blocks mem))))
                P s r' c j k) as (k' & -> & _);
      [lia | lia | done..|].
    cbn [bind]. eauto.
Qed.

Lemma kmp_free_restores_memory_witness :
  ∃ (mem1 : memory) (state : loc),
    Handle.kmp_build 2 all_ok
      (Memory (Heap {[ 1%nat := of_list (chars_of "ab") ]} ∅) ∅) 1%nat 2
    = Ret (mem1, state)
    ∧ ∀ mem2 : memory,
        fed state mem1 mem2 →
        Handle.kmp_free mem2 state
        = Ret (Memory (Heap {[ 1%nat := of_list (chars_of "ab") ]} ∅) ∅)
        ∧ ∀ (T_j : ascii) (j : Z) (fuel' : nat),
            (Z.to_nat 2 ≤ fuel')%nat →
            ∃ mem3 res, Handle.kmp_stream fuel' mem2 state T_j j
                        = Ret (mem3, res).
Proof.
  apply (kmp_free_restores_memory 2%nat
           (Memory (Heap {[ 1%nat := of_list (chars_of "ab") ]} ∅) ∅) 1%nat
           (chars_of "ab") 2);
    [lia | reflexivity | reflexivity | vm_compute; lia].
Defined.

Lemma record_freed (mem mem' : memory) (state : loc) :
  Handle.kmp_free mem state = Ret mem' → record mem' state = Fault BufState 0.
Proof.
  unfold Handle.kmp_free.
  destruct (record mem state) as [r| |]; simpl; [|done..].
  destruct (free BufFailure _ _) as [ints'| |]; simpl; [|done..].
  destruct (free BufStateP _ _) as [chars'| |]; simpl; [|done..].
  intros [= <-]. unfold record. case_decide; [done|].
  simpl. by rewrite lookup_delete_eq.
Qed.

(** A handle that went through [kmp_free] must not be fed: the first thing
    [kmp_stream] does is to read [state->P] in the record that was given
    back. *)
Theorem kmp_stream_after_kmp_free :
  ∀ (fuel : nat) (mem mem' : memory) (state : loc) (T_j : ascii) (j : Z),
    Handle.kmp_free mem state = Ret mem' →
    Handle.kmp_stream fuel mem' state T_j j = Fault BufState 0.
Proof.
  intros fuel mem mem' state c j Hfree. unfold Handle.kmp_stream.
  by rewrite (record_freed mem mem' state Hfree).
Qed.

Lemma kmp_stream_after_kmp_free_witness :
  Handle.kmp_stream 2
    (Memory (Heap {[ 1%nat := of_list (chars_of "ab") ]} ∅) ∅) 1%nat "a"%char 0
  = Fault BufState 0.
Proof.
  apply (kmp_stream_after_kmp_free 2%nat
           (Memory
              (Heap (<[2%nat := of_list (chars_of "ab")]>
                       {[ 1%nat := of_list (chars_of "ab") ]})
                 (<[1%nat := of_list [-1; -1]]> ∅))
              (<[1%nat := State 2%nat 2 (-1) 1%nat]> ∅))
           (Memory (Heap {[ 1%nat := of_list (chars_of "ab") ]} ∅) ∅)
           1%nat "a"%char 0).
  reflexivity.
Defined.

(** [kmp_free] must not be called twice on a handle: the second call starts by
    reading [state->failure] in the record that the first gave back. *)
Theorem kmp_free_twice :
  ∀ (mem mem' : memory) (state : loc),
    Handle.kmp_free mem state = Ret mem' →
    Handle.kmp_free mem' state = Fault BufState 0.
Proof.
  intros mem mem' state Hfree. unfold Handle.kmp_free at 1.
  by rewrite (record_freed mem mem' state Hfree).
Qed.

Lemma kmp_free_twice_witness :
  Handle.kmp_free
    (Memory (Heap {[ 1%nat := of_list (chars_of "ab") ]} ∅) ∅) 1%nat
  = Fault BufState 0.
Proof.
  apply (kmp_free_twice
           (Memory
              (Heap (<[2%nat := of_list (chars_of "ab")]>
                       {[ 1%nat := of_list (chars_of "ab") ]})
                 (<[1%nat := of_list [-1; -1]]> ∅))
              (<[1%nat := State 2%nat 2 (-1) 1%nat]> ∅))
           (Memory (Heap {[ 1%nat := of_list (chars_of "ab") ]} ∅) ∅)
           1%nat).
  reflexivity.
Defined.

(** A matcher built, fed "ab" and freed: the second feed signals the match and
    the memory ends as it began. *)
Example handle_build_feed_free :
  (built <- Handle.kmp_build 2 all_ok
              (Memory (Heap {[ 1%nat := of_list (chars_of "ab") ]} ∅) ∅)
              1%nat 2;;
   fed1 <- Handle.kmp_stream 2 built.1 built.2 "a"%char 0;;
   fed2 <- Handle.kmp_stream 2 fed1.1 built.2 "b"%char 1;;
   mem <- Handle.kmp_free fed2.1 built.2;;
   Ret (fed1.2, fed2.2, mem))
  = Ret (-1, 1, Memory (Heap {[ 1%nat := of_list (chars_of "ab") ]} ∅) ∅).
Proof. vm_compute. reflexivity. Qed.

(** ** [kmp_stream], feed by feed *)

(** In any state a built matcher has reached, feeding a symbol returns the
    position [j] it was given when the pattern ends at that symbol, and [-1]
    otherwise; [j] goes into the result only, not into the state. *)
Theorem kmp_stream_result :
  ∀ (fuel : nat) (h : heap) (pP : loc) (P : list ascii) (m : Z),
    1 ≤ m → Z.of_nat (length P) = m → deref (chars h) pP = of_list P →
    (Z.to_nat m ≤ fuel)%nat →
    ∃ (h' : heap) (state0 : kmp_state),
      kmp_build fuel all_ok h pP m = Ret (h', state0)
      ∧ ∀ (s : list ascii) (state : kmp_state) (T_j : ascii),
          reachable h' state0 s state →
          ∃ state' : kmp_state,
            ∀ (j : Z) (fuel' : nat),
              (Z.to_nat m ≤ fuel')%nat →
              kmp_stream fuel' h' state T_j j
              = Ret (state', if decide (P `suffix_of` s ++ [T_j]) then j else -1).
Proof.
  intros fuel h pP P m Hm <- HP Hfuel.
  destruct (kmp_build_stream_state fuel h pP P)
    as (h' & state0 & Hbuild & Hst & Hi & _); [lia | done | lia |].
  exists h', state0. split; [done|]. intros s state c Hreach.
  destruct (reachable_invariant h' P state0 ltac:(lia) Hst Hi s state Hreach)
    as (Hst' & k & Hi' & Hk).
  destruct (kmp_stream_spec (length P) h' P s state c 0 k)
    as (k0 & _ & Hk0); [lia | lia | done..|].
  exists (State (state_P state) (state_m state) (Z.of_nat k0 - 1)
            (state_failure state)).
  intros j fuel' Hfuel'.
  destruct (kmp_stream_spec fuel' h' P s state c j k)
    as (k' & -> & Hk'); [lia | lia | done..|].
  by rewrite (longest_below_unique _ _ _ _ _ Hk' Hk0).
Qed.

Lemma kmp_stream_result_witness :
  ∃ (h' : heap) (state0 : kmp_state),
    kmp_build 2 all_ok (Heap {[ 1%nat := of_list (chars_of "ab") ]} ∅) 1%nat 2
    = Ret (h', state0)
    ∧ ∀ (s : list ascii) (state : kmp_state) (T_j : ascii),
        reachable h' state0 s state →
        ∃ state' : kmp_state,
          ∀ (j : Z) (fuel' : nat),
            (Z.to_nat 2 ≤ fuel')%nat →
            kmp_stream fuel' h' state T_j j
            = Ret (state',
                   if decide (chars_of "ab" `suffix_of` s ++ [T_j]) then j
                   else -1).
Proof.
  apply (kmp_stream_result 2%nat
           (Heap {[ 1%nat := of_list (chars_of "ab") ]} ∅) 1%nat
           (chars_of "ab") 2);
    [lia | reflexivity | reflexivity | vm_compute; lia].
Defined.

(** ** [kmp_size] *)

Lemma to_int_small (int_bits z : Z) :
  0 ≤ z < 2 ^ (int_bits - 1) → 1 ≤ int_bits → to_int int_bits z = z.
Proof.
  intros Hz Hbits. unfold to_int.
  replace (2 ^ int_bits) with (2 * 2 ^ (int_bits - 1)).
  - rewrite Z.mod_small by lia. lia.
  - rewrite <- Z.pow_succ_r by lia. f_equal. lia.
Qed.

(** On a state made by [kmp_build] and fed any number of symbols, as long as
    the sum fits in an [int], [kmp_size] is the number of bytes of the two
    blocks the state points to, one [char] and one [int] for each of their
    cells, plus those of its two [int] fields and its two pointers. *)
Theorem kmp_size_counts_blocks :
  ∀ (sizeof_int sizeof_char_ptr sizeof_int_ptr size_bits int_bits : Z)
    (fuel : nat) (h : heap) (pP : loc) (P : list ascii) (m : Z),
    1 ≤ m → Z.of_nat (length P) = m → deref (chars h) pP = of_list P →
    (Z.to_nat m ≤ fuel)%nat →
    0 ≤ sizeof_int → 0 ≤ sizeof_char_ptr → 0 ≤ sizeof_int_ptr →
    1 ≤ int_bits ≤ size_bits →
    (1 + sizeof_int) * m + sizeof_int * 2 + sizeof_char_ptr + sizeof_int_ptr
    < 2 ^ (int_bits - 1) →
    ∃ (h' : heap) (state0 : kmp_state),
      kmp_build fuel all_ok h pP m = Ret (h', state0)
      ∧ ∀ (s : list ascii) (state : kmp_state),
          reachable h' state0 s state →
          kmp_size sizeof_int sizeof_char_ptr sizeof_int_ptr size_bits int_bits
            state
          = 1 * Z.of_nat (length (deref (chars h') (state_P state)))
            + sizeof_int
              * Z.of_nat (length (deref (ints h') (state_failure state)))
            + sizeof_int * 2 + sizeof_char_ptr + sizeof_int_ptr.
Proof.
  intros szi szc szp sbits ibits fuel h pP P m Hm <- HP Hfuel Hi Hc Hp Hbits
    Hfit.
  destruct (kmp_build_spec fuel h pP P)
    as (sP & sF & failure & -> & HsP & _ & _ & HsF & _ & Hlen & _);
    [lia | done | lia |].
  eexists _, _. split; [done|]. intros s state Hreach.
  pose proof (reachable_pointers _ _ _ _ Hreach) as [HP' Hf'].
  assert (state_m state = Z.of_nat (length P)) as Hm'.
  { clear HP' Hf'.
    induction Hreach as [|? ? ? ? ? ? ? _ IH Hrun]; [done|].
    apply kmp_stream_frame in Hrun as (_ & -> & _). done. }
  simpl in *. rewrite HP', Hf', !deref_insert_eq by done.
  rewrite of_list_length, Hlen. unfold kmp_size. rewrite Hm'.
  assert (2 ^ (ibits - 1) ≤ 2 ^ (sbits - 1)) by (apply Z.pow_le_mono_r; lia).
  assert (2 ^ (sbits - 1) < 2 ^ sbits) by (apply Z.pow_lt_mono_r; lia).
  assert (0 ≤ szi * Z.of_nat (length P)) by nia.
  unfold to_size_t. rewrite (Z.mod_small (Z.of_nat (length P))) by nia.
  rewrite Z.mod_small by nia. rewrite to_int_small by nia. lia.
Qed.

Lemma kmp_size_counts_blocks_witness :
  ∃ (h' : heap) (state0 : kmp_state),
    kmp_build 2 all_ok (Heap {[ 1%nat := of_list (chars_of "ab") ]} ∅) 1%nat 2
    = Ret (h', state0)
    ∧ ∀ (s : list ascii) (state : kmp_state),
        reachable h' state0 s state →
        kmp_size 4 8 8 64 32 state
        = 1 * Z.of_nat (length (deref (chars h') (state_P state)))
          + 4 * Z.of_nat (length (deref (ints h') (state_failure state)))
          + 4 * 2 + 8 + 8.
Proof.
  apply (kmp_size_counts_blocks 4 8 8 64 32 2%nat
           (Heap {[ 1%nat := of_list (chars_of "ab") ]} ∅) 1%nat
           (chars_of "ab") 2);
    [lia | reflexivity | reflexivity | vm_compute; lia | lia | lia | lia | lia
    | vm_compute; reflexivity].
Defined.

(** ** The cells of [output] that [kmp_match] needs *)

Lemma occurrences_take_le (P T : list ascii) (j : nat) :
  (1 ≤ length P)%nat →
  (length (occurrences P (take j T)) ≤ length (occurrences P T))%nat.
Proof.
  intros Hm. rewrite <- (take_drop j T) at 2.
  rewrite occurrences_match_ends by done. rewrite length_app. lia.
Qed.

Lemma kmp_match_loop_cells (P T : list ascii) (failure output : block Z)
    (fuel : nat) :
  (1 ≤ length P)%nat → table_upto P failure (length P) →
  (length P ≤ fuel)%nat →
  ∀ (rounds j k : nat),
    (j + rounds = length T)%nat →
    longest_below P (take j T) (length P) k →
    (length (occurrences P (take j T)) ≤ length output)%nat →
    kmp_match_loop fuel (of_list T) (of_list P) (Z.of_nat (length P))
      failure rounds (Z.of_nat j) (Z.of_nat k - 1)
      (Z.of_nat (length (occurrences P (take j T))))
      (recorded (occurrences P (take j T)) output)
    = if decide (length (occurrences P T) ≤ length output)%nat
      then Ret (Z.of_nat (length (occurrences P T)),
                recorded (occurrences P T) output)
      else Fault BufOutput (Z.of_nat (length output)).
Proof.
  intros P_nonempty table enough_fuel.
  induction rounds as [|rounds IH]; intros j k Hj Hk Hfits.
  - simpl. rewrite take_ge in * by lia. by rewrite decide_True.
  - destruct (lookup_lt_is_Some_2 T j) as [c Hc]; [lia|].
    destruct (transition_spec P failure (take j T) c (length P))
      with (fuel := fuel) (k := k) as (i1 & k2 & Hfb & Hadv & Hk2);
      [lia | by eapply table_upto_mono; [|done]; lia | done
      | destruct Hk; lia |].
    rewrite <- (take_S_r _ _ _ Hc) in Hk2.
    assert (length (take j T) = j) as Hlen by (rewrite length_take_le; lia).
    pose proof (occurrences_snoc P (take j T) c P_nonempty) as Hocc.
    rewrite <- (take_S_r _ _ _ Hc), Hlen in Hocc.
    simpl. rewrite (load_of_list _ _ _ j c) by done.
    rewrite Hfb. simpl. rewrite Hadv. simpl.
    replace (Z.of_nat j + 1) with (Z.of_nat (S j)) by lia.
    destruct Hk2 as (Hk2lt & Hk2m & Hk2max).
    destruct (decide (Z.of_nat k2 - 1 = Z.of_nat (length P) - 1))
      as [Heq|Hne].
    + assert (k2 = length P) as -> by lia.
      assert (P `suffix_of` take (S j) T) as Hsuf.
      { destruct Hk2m as [_ H]. by rewrite take_ge in H by lia. }
      rewrite decide_True in Hocc by done.
      pose proof (suffix_length _ _ Hsuf) as HmSj.
      rewrite length_take_le in HmSj by lia.
      destruct (decide (length (occurrences P (take j T)) < length output)%nat)
        as [Hroom|Hfull].
      * rewrite (store_block _ _ _ (length (occurrences P (take j T))))
          by (done || rewrite recorded_length; lia).
        simpl.
        replace (Z.of_nat j - Z.of_nat (length P) + 1)
          with (Z.of_nat (S j - length P)) by lia.
        rewrite recorded_snoc by lia.
        destruct (table (length P - 1)%nat) as (k3 & Hk3 & Hl3); [lia|].
        replace (S (length P - 1)) with (length P) in Hl3 by lia.
        rewrite (load_block _ _ _ (length P - 1)%nat (Z.of_nat k3 - 1))
          by (done || lia).
        simpl. rewrite <- Hocc.
        replace (Z.of_nat (length (occurrences P (take j T))) + 1)
          with (Z.of_nat (length (occurrences P (take (S j) T))))
          by (rewrite Hocc, length_app; simpl; lia).
        apply IH; [lia | by apply longest_below_chain |].
        rewrite Hocc, length_app. simpl. lia.
      * unfold store. rewrite recorded_length by done.
        rewrite decide_False by lia. simpl.
        pose proof (occurrences_take_le P T (S j) P_nonempty) as Hmono.
        rewrite Hocc, length_app in Hmono. simpl in Hmono.
        rewrite decide_False by lia. do 2 f_equal. lia.
    + assert (k2 < length P)%nat as Hlt by lia.
      rewrite decide_False in Hocc.
      * rewrite app_nil_r in Hocc. rewrite <- Hocc.
        apply IH; [lia | by apply longest_below_weaken | by rewrite Hocc].
      * intros Hsuf. assert (length P ≤ k2)%nat; [|lia].
        apply Hk2max; [lia|]. split; [done|]. by rewrite take_ge by lia.
Qed.

(** [kmp_match] needs one cell of [output] for each occurrence and no more:
    with that many cells it returns, filling them in order; with fewer it
    writes just past the end of [output], at the first occurrence that has no
    cell left. *)
Theorem kmp_match_output_cells :
  ∀ (fuel : nat) (T P : list ascii) (n m : Z) (output : block Z),
    0 ≤ n → 1 ≤ m → Z.of_nat (length T) = n → Z.of_nat (length P) = m →
    (Z.to_nat m ≤ fuel)%nat →
    kmp_match fuel true (of_list T) n (of_list P) m output
    = if decide (length (occurrences P T) ≤ length output)%nat
      then Ret (Z.of_nat (length (occurrences P T)),
                recorded (occurrences P T) output)
      else Fault BufOutput (Z.of_nat (length output)).
Proof.
  intros fuel T P n m output Hn Hm <- <- Hfuel. unfold kmp_match.
  destruct (kmp_failure_spec P fuel (malloc true (Z.of_nat (length P))))
    as (failure & -> & Hlen & Htable);
    [lia | apply malloc_length | lia |].
  simpl. rewrite Nat2Z.id.
  pose proof (kmp_match_loop_cells P T failure output fuel ltac:(lia) Htable
                ltac:(lia) (length T) 0 0) as Hloop.
  simpl in Hloop. rewrite occurrences_nil in Hloop by lia.
  apply Hloop; [done | apply longest_below_nil; lia | simpl; lia].
Qed.

Lemma kmp_match_output_cells_witness :
  kmp_match 2 true (of_list (chars_of "aaaa")) 4 (of_list (chars_of "aa")) 2
    (malloc true 2)
  = if decide (length (occurrences (chars_of "aa") (chars_of "aaaa"))
               ≤ length (@malloc Z true 2))%nat
    then Ret (Z.of_nat (length (occurrences (chars_of "aa") (chars_of "aaaa"))),
              recorded (occurrences (chars_of "aa") (chars_of "aaaa"))
                (malloc true 2))
    else Fault BufOutput (Z.of_nat (length (@malloc Z true 2))).
Proof.
  apply (kmp_match_output_cells 2%nat (chars_of "aaaa") (chars_of "aa") 4 2
           (malloc true 2));
    [lia | lia | reflexivity | reflexivity | vm_compute; lia].
Defined.

Example kmp_match_output_too_short :
  kmp_match 2 true (of_list (chars_of "aaaa")) 4 (of_list (chars_of "aa")) 2
    (malloc true 2)
  = Fault BufOutput 2.
Proof. reflexivity. Qed.

Lemma occurrences_replicate (a : ascii) (n m : nat) :
  (1 ≤ m)%nat →
  occurrences (replicate m a) (replicate n a) = seq 0 (S n - m).
Proof.
  intros Hm. unfold occurrences. rewrite !length_replicate.
  transitivity (filter (λ _ : nat, True) (seq 0 (S n - m))).
  - apply filter_ext_in. intros o Ho%elem_of_seq. split; [done|]. intros _.
    unfold occurs_at. rewrite length_replicate, drop_replicate, take_replicate.
    f_equal. lia.
  - induction (seq 0 (S n - m)) as [|x l IH]; [done|].
    rewrite filter_cons_True by done. by rewrite IH.
Qed.

(** The bound [n - m + 1] on the number of matches is reached: when the text
    and the pattern repeat one symbol, every offset from [0] to [n - m] is
    recorded and an [output] of [n - m + 1] cells is filled to its last
    cell. *)
Theorem kmp_match_fills_output :
  ∀ (fuel : nat) (a : ascii) (n m : nat) (output : block Z),
    (1 ≤ m ≤ n)%nat → length output = (S n - m)%nat → (m ≤ fuel)%nat →
    kmp_match fuel true (of_list (replicate n a)) (Z.of_nat n)
      (of_list (replicate m a)) (Z.of_nat m) output
    = Ret (Z.of_nat n - Z.of_nat m + 1, of_list (offsets (seq 0 (S n - m)))).
Proof.
  intros fuel a n m output Hmn Hlen Hfuel.
  pose proof (kmp_match_spec (replicate m a) (replicate n a) output fuel) as H.
  rewrite !length_replicate in H. rewrite H by lia.
  rewrite occurrences_replicate by lia. unfold recorded.
  rewrite length_seq, drop_ge, app_nil_r by lia.
  do 2 f_equal. lia.
Qed.

Lemma kmp_match_fills_output_witness :
  kmp_match 2 true (of_list (replicate 4 "a"%char)) (Z.of_nat 4)
    (of_list (replicate 2 "a"%char)) (Z.of_nat 2) (malloc true 3)
  = Ret (Z.of_nat 4 - Z.of_nat 2 + 1, of_list (offsets (seq 0 (5 - 2)))).
Proof.
  apply (kmp_match_fills_output 2%nat "a"%char 4%nat 2%nat (malloc true 3));
    [lia | reflexivity | lia].
Defined.

(** ** What [kmp_failure] and [kmp_match] read and write *)

Lemma load_agree {A : Type} b (a1 a2 : block A) (t : nat) (i : Z) :
  take t a1 = take t a2 → i < Z.of_nat t → load b a1 i = load b a2 i.
Proof.
  intros Heq Hi. unfold load. case_decide; [|done].
  rewrite <- (lookup_take_lt a1 t), <- (lookup_take_lt a2 t) by lia.
  by rewrite Heq.
Qed.

Lemma fallback_agree fuel (P1 P2 : block ascii) failure rhs (t t' : nat) :
  take t P1 = take t P2 → decreasing_upto failure t' →
  ∀ i, i < Z.of_nat t' → i + 1 < Z.of_nat t →
       fallback fuel P1 failure rhs i = fallback fuel P2 failure rhs i.
Proof.
  intros Heq Hdec. induction fuel as [|fuel IH]; intros i Hi Hi1; [done|].
  simpl. case_decide; [|done].
  rewrite (load_agree BufP P1 P2 t) by done.
  destruct (load BufP P2 (i + 1)) as [a| |]; simpl; [|done..].
  destruct rhs as [c| |]; simpl; [|done..].
  destruct (Ascii.eqb a c); [done|].
  destruct (load BufFailure failure i) as [i'| |] eqn:Hload; simpl; [|done..].
  apply load_Ret_inv in Hload as [Hi0 Hload].
  apply Hdec in Hload; [|lia]. apply IH; lia.
Qed.

Lemma advance_agree (P1 P2 : block ascii) rhs (t : nat) (i : Z) :
  take t P1 = take t P2 → i + 1 < Z.of_nat t →
  advance P1 rhs i = advance P2 rhs i.
Proof.
  intros Heq Hi. unfold advance. by rewrite (load_agree BufP P1 P2 t).
Qed.

Lemma kmp_failure_loop_agree fuel (P1 P2 : block ascii) (m : nat) rounds :
  take m P1 = take m P2 →
  ∀ (j : nat) (i : Z) (failure : block Z),
    (1 ≤ j)%nat → i + 1 < Z.of_nat j → (j + rounds ≤ m)%nat →
    decreasing_upto failure j →
    kmp_failure_loop fuel P1 rounds (Z.of_nat j) i failure
    = kmp_failure_loop fuel P2 rounds (Z.of_nat j) i failure.
Proof.
  intros Heq. induction rounds as [|rounds IH];
    intros j i failure Hj Hi Hm Hdec; [done|].
  simpl. rewrite (load_agree BufP P1 P2 m (Z.of_nat j)) by (done || lia).
  rewrite (fallback_agree fuel P1 P2 failure _ m j) by (done || lia).
  pose proof (fallback_le fuel P2 failure (load BufP P2 (Z.of_nat j)) j
                Hdec i) as Hle.
  destruct (fallback fuel P2 failure _ i) as [i1| |]; simpl; [|done..].
  specialize (Hle i1 ltac:(lia) eq_refl).
  rewrite (advance_agree P1 P2 _ m) by (done || lia).
  pose proof (advance_le P2 (load BufP P2 (Z.of_nat j)) i1) as Hle2.
  destruct (advance P2 _ i1) as [i2| |]; simpl; [|done..].
  specialize (Hle2 i2 eq_refl).
  destruct (store BufFailure failure (Z.of_nat j) i2) as [failure1| |]
    eqn:Hstore; simpl; [|done..].
  apply store_Ret_inv in Hstore as [_ ->]. rewrite Nat2Z.id.
  replace (Z.of_nat j + 1) with (Z.of_nat (S j)) by lia.
  apply IH; [lia | lia | lia |]. apply decreasing_upto_insert; [done | lia].
Qed.

Lemma kmp_failure_agree fuel (P1 P2 : block ascii) (m : Z) failure :
  take (Z.to_nat m) P1 = take (Z.to_nat m) P2 →
  kmp_failure fuel P1 m failure = kmp_failure fuel P2 m failure.
Proof.
  intros Heq. unfold kmp_failure.
  destruct (store BufFailure failure 0 (-1)) as [failure0| |] eqn:Hstore;
    simpl; [|done..].
  apply store_Ret_inv in Hstore as [_ ->].
  destruct (decide (1 ≤ m)) as [Hm|Hm].
  - apply (kmp_failure_loop_agree fuel P1 P2 (Z.to_nat m) _ Heq 1);
      [lia | lia | lia |].
    apply (decreasing_upto_insert _ 0); [|lia]. intros x v Hx. lia.
  - by replace (Z.to_nat (m - 1)) with 0%nat by lia.
Qed.

Lemma kmp_match_loop_agree fuel (T1 T2 P1 P2 : block ascii) (m : Z)
    (n : nat) failure rounds :
  take n T1 = take n T2 → take (Z.to_nat m) P1 = take (Z.to_nat m) P2 →
  1 ≤ m → decreasing_upto failure (Z.to_nat m) →
  ∀ (j : nat) (i matches : Z) (output : block Z),
    i + 1 < m → (j + rounds ≤ n)%nat →
    kmp_match_loop fuel T1 P1 m failure rounds (Z.of_nat j) i matches output
    = kmp_match_loop fuel T2 P2 m failure rounds (Z.of_nat j) i matches output.
Proof.
  intros HT HP Hm Hdec. induction rounds as [|rounds IH];
    intros j i matches output Hi Hj; [done|].
  simpl. rewrite (load_agree BufT T1 T2 n (Z.of_nat j)) by (done || lia).
  rewrite (fallback_agree fuel P1 P2 failure _ (Z.to_nat m) (Z.to_nat m))
    by (done || lia).
  pose proof (fallback_le fuel P2 failure (load BufT T2 (Z.of_nat j))
                (Z.to_nat m) Hdec i) as Hle.
  destruct (fallback fuel P2 failure _ i) as [i1| |]; simpl; [|done..].
  specialize (Hle i1 ltac:(lia) eq_refl).
  rewrite (advance_agree P1 P2 _ (Z.to_nat m)) by (done || lia).
  pose proof (advance_le P2 (load BufT T2 (Z.of_nat j)) i1) as Hle2.
  destruct (advance P2 _ i1) as [i2| |]; simpl; [|done..].
  specialize (Hle2 i2 eq_refl).
  replace (Z.of_nat j + 1) with (Z.of_nat (S j)) by lia.
  case_decide as Hfull; [|apply IH; lia].
  destruct (store BufOutput output matches _) as [output'| |]; simpl;
    [|done..].
  destruct (load BufFailure failure i2) as [i3| |] eqn:Hi3; simpl; [|done..].
  apply load_Ret_inv in Hi3 as [Hi20 Hi3]. apply Hdec in Hi3; [|lia].
  apply IH; lia.
Qed.

(** [kmp_failure] reads no symbol of [P] at or beyond index [m], and
    [kmp_match] none of [P] at or beyond [m] nor of [T] at or beyond [n]:
    whatever the buffers hold there, and however long they are, the runs are
    the same. *)
Theorem kmp_match_reads_prefixes :
  ∀ (fuel : nat) (heap_ok : bool) (T1 T2 P1 P2 : block ascii) (n m : Z)
    (failure output : block Z),
    take (Z.to_nat n) T1 = take (Z.to_nat n) T2 →
    take (Z.to_nat m) P1 = take (Z.to_nat m) P2 →
    kmp_failure fuel P1 m failure = kmp_failure fuel P2 m failure
    ∧ kmp_match fuel heap_ok T1 n P1 m output
      = kmp_match fuel heap_ok T2 n P2 m output.
Proof.
  intros fuel heap_ok T1 T2 P1 P2 n m failure output HT HP.
  split; [by apply kmp_failure_agree|]. unfold kmp_match.
  rewrite (kmp_failure_agree fuel P1 P2) by done.
  pose proof (kmp_failure_safe fuel P2 m (malloc heap_ok m)) as Hsafe.
  destruct (kmp_failure fuel P2 m (malloc heap_ok m)) as [table| |] eqn:Hrun;
    simpl in *; [|done..].
  destruct (decide (1 ≤ m)) as [Hm|Hm].
  - apply (kmp_match_loop_agree fuel T1 T2 P1 P2 m (Z.to_nat n) table
             (Z.to_nat n) HT HP Hm Hsafe 0); lia.
  - rewrite malloc_null in Hrun by (right; lia). done.
Qed.

Lemma kmp_match_reads_prefixes_witness :
  kmp_failure 2 (of_list (chars_of "abX")) 2 (malloc true 2)
  = kmp_failure 2 (of_list (chars_of "ab")) 2 (malloc true 2)
  ∧ kmp_match 2 true (of_list (chars_of "cabYY")) 3 (of_list (chars_of "abX")) 2
      (malloc true 2)
    = kmp_match 2 true (of_list (chars_of "cab")) 3 (of_list (chars_of "ab")) 2
        (malloc true 2).
Proof.
  apply (kmp_match_reads_prefixes 2%nat true (of_list (chars_of "cabYY"))
           (of_list (chars_of "cab")) (of_list (chars_of "abX"))
           (of_list (chars_of "ab")) 3 2 (malloc true 2) (malloc true 2));
    reflexivity.
Defined.

Lemma kmp_failure_loop_writes fuel P rounds :
  ∀ (j : nat) (i : Z) (failure failure' : block Z),
    kmp_failure_loop fuel P rounds (Z.of_nat j) i failure = Ret failure' →
    length failure' = length failure
    ∧ ∀ x, (x < j ∨ j + rounds ≤ x)%nat → failure' !! x = failure !! x.
Proof.
  induction rounds as [|rounds IH]; intros j i failure failure'.
  - simpl. by intros [= <-].
  - simpl.
    destruct (fallback fuel P failure _ i) as [i1| |]; simpl; [|done..].
    destruct (advance P _ i1) as [i2| |]; simpl; [|done..].
    destruct (store BufFailure failure (Z.of_nat j) i2) as [failure1| |]
      eqn:Hstore; simpl; [|done..].
    apply store_Ret_inv in Hstore as [_ ->]. rewrite Nat2Z.id.
    replace (Z.of_nat j + 1) with (Z.of_nat (S j)) by lia.
    intros Hrun. apply IH in Hrun as [Hlen Hsame].
    rewrite length_insert in Hlen. split; [done|].
    intros x Hx. rewrite Hsame by lia. apply list_lookup_insert_ne. lia.
Qed.

(** [kmp_failure] writes the cells [failure[0 .. m-1]] and no other
    ([failure[0]] alone when [m <= 1]): a buffer longer than [m] keeps what
    it held from index [m] on. *)
Theorem kmp_failure_writes_table_only :
  ∀ (fuel : nat) (P : block ascii) (m : Z) (failure failure' : block Z),
    kmp_failure fuel P m failure = Ret failure' →
    length failure' = length failure
    ∧ drop (Z.to_nat (Z.max 1 m)) failure'
      = drop (Z.to_nat (Z.max 1 m)) failure.
Proof.
  intros fuel P m failure failure'. unfold kmp_failure.
  destruct (store BufFailure failure 0 (-1)) as [failure0| |] eqn:Hstore;
    simpl; [|done..].
  apply store_Ret_inv in Hstore as [_ ->].
  intros Hrun.
  apply (kmp_failure_loop_writes fuel P (Z.to_nat (m - 1)) 1) in Hrun
    as [Hlen Hsame].
  rewrite length_insert in Hlen. split; [done|].
  apply list_eq. intros x. rewrite !lookup_drop.
  rewrite Hsame by lia. apply list_lookup_insert_ne. lia.
Qed.

Lemma kmp_failure_writes_table_only_witness :
  length (of_list [-1; -1] ++ [Some 7; None])
  = length (@malloc Z true 2 ++ [Some 7; None])
  ∧ drop (Z.to_nat (Z.max 1 2)) (of_list [-1; -1] ++ [Some 7; None])
    = drop (Z.to_nat (Z.max 1 2)) (@malloc Z true 2 ++ [Some 7; None]).
Proof.
  apply (kmp_failure_writes_table_only 2%nat (of_list (chars_of "ab")) 2
           (malloc true 2 ++ [Some 7; None])).
  reflexivity.
Defined.
